(** * HomebridgeMQTTBase: a shallow embedding of src/HomebridgeMQTTBase.js

    The class keeps a state object in step with a remote peer over MQTT.
    [setStateAndEmit] merges a partial object into [this.state], queues
    the caller's callback and calls the debounced [sendStateToClients];
    when the debounce timer fires the state is published, and the
    completion of the publish drains [this.callbackQueue].  [onMessage]
    hands the parsed payload of a message on the subscribed topic to the
    host's [onRemoteStateChange].

    Layout: the runtime values the class touches (module [JSON]: values,
    objects, [JSON.stringify], [JSON.parse]); the instance and its
    handlers; the event loop; the theorems. *)

From Stdlib Require Import List String Ascii ZArith NArith Lia Bool Arith.
From Stdlib Require Import DecimalString.
Import ListNotations.
Local Open Scope string_scope.
#[local] Set Warnings "-register-all".

(** ** Runtime values *)

Module JSON.

(** The values that [JSON.parse] produces and that a state object holds.
    A number is the exact decimal [mantissa * 10 ^ exponent]; the rounding
    and the range of IEEE doubles are not modelled.  A string is the UTF-8
    text of the JavaScript string.  An object lists its own properties in
    property order; it is a plain data object with ordinary keys (no
    accessors, and not the key [__proto__], which assignment hands to the
    prototype).  Values that JSON does not have ([undefined], functions)
    are left out. *)
Inductive value : Type :=
| Null
| Bool (b : bool)
| Number (mantissa exponent : Z)
| Str (s : string)
| Array (items : list value)
| Object (props : list (string * value)).

Definition object : Type := list (string * value).

(** *** Objects *)

(** [o[k]]: the value of own property [k]. *)
Fixpoint get (k : string) (o : object) : option value :=
  match o with
  | [] => None
  | (k', v) :: o' => if String.eqb k k' then Some v else get k o'
  end.

Definition has (k : string) (o : object) : bool :=
  match get k o with Some _ => true | None => false end.

Definition keys (o : object) : list string := map fst o.

Definition is_digit (c : ascii) : bool :=
  (48 <=? nat_of_ascii c)%nat && (nat_of_ascii c <=? 57)%nat.

Definition digit_val (c : ascii) : Z := Z.of_nat (nat_of_ascii c) - 48.

Definition digits_val (ds : list ascii) : Z :=
  fold_left (fun acc c => acc * 10 + digit_val c)%Z ds 0%Z.

(** An array index is a canonical decimal numeral below [2^32 - 1]; the
    runtime lists such keys first, in ascending order. *)
Definition array_index (k : string) : option Z :=
  match list_ascii_of_string k with
  | [] => None
  | c :: cs =>
      if forallb is_digit (c :: cs)
         && (negb (Ascii.eqb c "0") || (List.length cs =? 0)%nat)
         && (digits_val (c :: cs) <? 4294967295)%Z
      then Some (digits_val (c :: cs))
      else None
  end.

(** Where a new property [k] goes: an array index goes before the first
    key that is not a smaller array index, any other key goes last. *)
Fixpoint add_prop (k : string) (v : value) (o : object) : object :=
  match o with
  | [] => [(k, v)]
  | (k', v') :: o' =>
      match array_index k, array_index k' with
      | Some i, Some i' =>
          if (i <? i')%Z then (k, v) :: o else (k', v') :: add_prop k v o'
      | Some _, None => (k, v) :: o
      | None, _ => (k', v') :: add_prop k v o'
      end
  end.

(** Overwriting an existing property keeps its place. *)
Fixpoint update_prop (k : string) (v : value) (o : object) : object :=
  match o with
  | [] => []
  | (k', v') :: o' =>
      if String.eqb k k' then (k', v) :: o' else (k', v') :: update_prop k v o'
  end.

(** [o[k] = v] on an ordinary object. *)
Definition set (k : string) (v : value) (o : object) : object :=
  if has k o then update_prop k v o else add_prop k v o.

(** [Object.assign(target, source)]: every own property of [source], in
    property order, is set on [target]. *)
Definition assign (target source : object) : object :=
  fold_left (fun o kv => set (fst kv) (snd kv) o) source target.

(** *** [JSON.stringify] *)

Definition dquote : ascii := ascii_of_N 34.
Definition backslash : ascii := ascii_of_N 92.

Definition hex_digit (n : N) : ascii :=
  if (n <? 10)%N then ascii_of_N (48 + n) else ascii_of_N (87 + n).

Definition hex4 (n : N) : list ascii :=
  [hex_digit (n / 4096 mod 16); hex_digit (n / 256 mod 16);
   hex_digit (n / 16 mod 16); hex_digit (n mod 16)]%N.

Definition unicode_escape (n : N) : list ascii :=
  backslash :: "u"%char :: hex4 n.

(** A lone surrogate sits in the text as the three bytes [ED A0..BF xx]. *)
Definition lone_surrogate (b1 b2 b3 : ascii) : option N :=
  let n1 := N_of_ascii b1 in
  let n2 := N_of_ascii b2 in
  let n3 := N_of_ascii b3 in
  if ((n1 =? 237) && (160 <=? n2) && (n2 <=? 191)
      && (128 <=? n3) && (n3 <=? 191))%N
  then Some (53248 + (n2 - 128) * 64 + (n3 - 128))%N
  else None.

Definition quote_char (c : ascii) : list ascii :=
  let n := N_of_ascii c in
  if (n =? 34)%N then [backslash; dquote]
  else if (n =? 92)%N then [backslash; backslash]
  else if (n =? 8)%N then [backslash; "b"%char]
  else if (n =? 12)%N then [backslash; "f"%char]
  else if (n =? 10)%N then [backslash; "n"%char]
  else if (n =? 13)%N then [backslash; "r"%char]
  else if (n =? 9)%N then [backslash; "t"%char]
  else if (n <? 32)%N then unicode_escape n
  else [c].

Fixpoint quote_chars (cs : list ascii) : list ascii :=
  match cs with
  | [] => []
  | b1 :: cs' =>
      match cs' with
      | b2 :: b3 :: cs'' =>
          match lone_surrogate b1 b2 b3 with
          | Some u => (unicode_escape u ++ quote_chars cs'')%list
          | None => (quote_char b1 ++ quote_chars cs')%list
          end
      | _ => (quote_char b1 ++ quote_chars cs')%list
      end
  end.

Definition quote (s : string) : string :=
  string_of_list_ascii
    (dquote :: quote_chars (list_ascii_of_string s) ++ [dquote])%list.

Definition decimal (n : Z) : list ascii :=
  list_ascii_of_string (NilZero.string_of_uint (N.to_uint (Z.to_N (Z.abs n)))).

Fixpoint drop_zeros (cs : list ascii) : list ascii :=
  match cs with
  | "0"%char :: cs' => drop_zeros cs'
  | _ => cs
  end.

Definition strip_trailing_zeros (cs : list ascii) : list ascii :=
  rev (drop_zeros (rev cs)).

Definition zeros (n : Z) : list ascii := repeat "0"%char (Z.to_nat n).

(** [Number::toString] on a decimal: with [s] the significant digits,
    [k] their count and [n] the place of the decimal point. *)
Definition number_to_string (m e : Z) : string :=
  if (m =? 0)%Z then "0"
  else
    let ds := decimal m in
    let s := strip_trailing_zeros ds in
    let k := Z.of_nat (List.length s) in
    let n := (Z.of_nat (List.length ds) + e)%Z in
    let body :=
      (if (k <=? n)%Z && (n <=? 21)%Z then s ++ zeros (n - k)
       else if (0 <? n)%Z && (n <=? 21)%Z
       then firstn (Z.to_nat n) s ++ ["."%char] ++ skipn (Z.to_nat n) s
       else if (-6 <? n)%Z && (n <=? 0)%Z
       then ["0"; "."]%char ++ zeros (- n) ++ s
       else
         let x := (n - 1)%Z in
         let tail := ["e"%char; if (x <? 0)%Z then "-"%char else "+"%char]
                     ++ decimal x in
         match s with
         | [d] => d :: tail
         | d :: ds' => d :: "."%char :: ds' ++ tail
         | [] => tail
         end)%list in
    string_of_list_ascii ((if (m <? 0)%Z then ["-"%char] else []) ++ body)%list.

Definition join (parts : list string) : string := String.concat "," parts.

Fixpoint stringify (v : value) : string :=
  match v with
  | Null => "null"
  | Bool true => "true"
  | Bool false => "false"
  | Number m e => number_to_string m e
  | Str s => quote s
  | Array items => "[" ++ join (map stringify items) ++ "]"
  | Object props =>
      "{" ++ join (map (fun kv => quote (fst kv) ++ ":" ++ stringify (snd kv)) props)
          ++ "}"
  end.

(** *** [JSON.parse] *)

Definition is_ws (c : ascii) : bool :=
  let n := N_of_ascii c in
  ((n =? 32) || (n =? 9) || (n =? 10) || (n =? 13))%N.

Fixpoint skip_ws (cs : list ascii) : list ascii :=
  match cs with
  | c :: cs' => if is_ws c then skip_ws cs' else cs
  | [] => []
  end.

(** What follows white space and the character [c]. *)
Definition expect (c : ascii) (cs : list ascii) : option (list ascii) :=
  match skip_ws cs with
  | c' :: rest => if Ascii.eqb c c' then Some rest else None
  | [] => None
  end.

Definition hex_val (c : ascii) : option N :=
  let n := N_of_ascii c in
  if ((48 <=? n) && (n <=? 57))%N then Some (n - 48)%N
  else if ((97 <=? n) && (n <=? 102))%N then Some (n - 87)%N
  else if ((65 <=? n) && (n <=? 70))%N then Some (n - 55)%N
  else None.

Definition hex4_val (a b c d : ascii) : option N :=
  match hex_val a, hex_val b, hex_val c, hex_val d with
  | Some x, Some y, Some z, Some w => Some (x * 4096 + y * 256 + z * 16 + w)%N
  | _, _, _, _ => None
  end.

(** The UTF-8 bytes of a code point; a surrogate gets the three bytes of
    the same scheme. *)
Definition utf8 (cp : N) : list ascii :=
  (if cp <? 128 then [ascii_of_N cp]
   else if cp <? 2048
   then [ascii_of_N (192 + cp / 64); ascii_of_N (128 + cp mod 64)]
   else if cp <? 65536
   then [ascii_of_N (224 + cp / 4096); ascii_of_N (128 + cp / 64 mod 64);
         ascii_of_N (128 + cp mod 64)]
   else [ascii_of_N (240 + cp / 262144); ascii_of_N (128 + cp / 4096 mod 64);
         ascii_of_N (128 + cp / 64 mod 64); ascii_of_N (128 + cp mod 64)])%N.

Definition is_high (u : N) : bool := ((55296 <=? u) && (u <=? 56319))%N.
Definition is_low (u : N) : bool := ((56320 <=? u) && (u <=? 57343))%N.

(** A character of a string literal: a byte of the text, or the code unit
    of a [\uXXXX] escape. *)
Inductive code : Type :=
| Byte (c : ascii)
| Escaped (u : N).

Definition simple_escape (e : ascii) : option ascii :=
  if Ascii.eqb e dquote || Ascii.eqb e backslash || Ascii.eqb e "/" then Some e
  else if Ascii.eqb e "b" then Some (ascii_of_N 8)
  else if Ascii.eqb e "f" then Some (ascii_of_N 12)
  else if Ascii.eqb e "n" then Some (ascii_of_N 10)
  else if Ascii.eqb e "r" then Some (ascii_of_N 13)
  else if Ascii.eqb e "t" then Some (ascii_of_N 9)
  else None.

Definition add_code (u : code) (r : option (list code * list ascii))
  : option (list code * list ascii) :=
  match r with
  | Some (us, rest) => Some (u :: us, rest)
  | None => None
  end.

(** The characters of a string literal after its opening quote, up to the
    closing quote, and what follows. *)
Fixpoint parse_chars (cs : list ascii) : option (list code * list ascii) :=
  match cs with
  | [] => None
  | c :: cs1 =>
      if Ascii.eqb c dquote then Some ([], cs1)
      else if (N_of_ascii c <? 32)%N then None
      else if Ascii.eqb c backslash then
        match cs1 with
        | [] => None
        | e :: cs2 =>
            if Ascii.eqb e "u" then
              match cs2 with
              | h1 :: h2 :: h3 :: h4 :: cs3 =>
                  match hex4_val h1 h2 h3 h4 with
                  | Some u => add_code (Escaped u) (parse_chars cs3)
                  | None => None
                  end
              | _ => None
              end
            else
              match simple_escape e with
              | Some b => add_code (Byte b) (parse_chars cs2)
              | None => None
              end
        end
      else add_code (Byte c) (parse_chars cs1)
  end.

(** The text of the characters: a high surrogate escape followed by a low
    one is one code point. *)
Fixpoint encode (us : list code) : list ascii :=
  match us with
  | [] => []
  | Byte c :: us' => c :: encode us'
  | Escaped u :: us' =>
      match us' with
      | Escaped l :: us'' =>
          if is_high u && is_low l
          then (utf8 (65536 + (u - 55296) * 1024 + (l - 56320))%N ++ encode us'')%list
          else (utf8 u ++ encode us')%list
      | _ => (utf8 u ++ encode us')%list
      end
  end.

(** A string literal at the head of [cs]. *)
Definition parse_string (cs : list ascii) : option (string * list ascii) :=
  match cs with
  | c :: cs' =>
      if Ascii.eqb c dquote then
        match parse_chars cs' with
        | Some (us, rest) => Some (string_of_list_ascii (encode us), rest)
        | None => None
        end
      else None
  | [] => None
  end.

Fixpoint span_digits (cs : list ascii) : list ascii * list ascii :=
  match cs with
  | c :: cs' =>
      if is_digit c
      then let (ds, rest) := span_digits cs' in (c :: ds, rest)
      else ([], cs)
  | [] => ([], [])
  end.

(** The number [m * 10 ^ e] with the trailing zeros of [m] moved into the
    exponent, so that equal numbers are equal terms. *)
Definition make_number (m e : Z) : value :=
  if (m =? 0)%Z then Number 0 0
  else
    let ds := decimal m in
    let z := Z.of_nat (List.length ds - List.length (strip_trailing_zeros ds)) in
    Number (m / 10 ^ z) (e + z).

(** The integer part of a number: [0], or digits that start with [1-9]. *)
Definition parse_int (cs : list ascii) : option (list ascii * list ascii) :=
  match cs with
  | c :: rest =>
      if Ascii.eqb c "0" then Some ([c], rest)
      else if is_digit c then Some (span_digits cs)
      else None
  | [] => None
  end.

(** One digit at least. *)
Definition parse_digits (cs : list ascii) : option (list ascii * list ascii) :=
  match span_digits cs with
  | ([], _) => None
  | (ds, rest) => Some (ds, rest)
  end.

Definition parse_frac (cs : list ascii) : option (list ascii * list ascii) :=
  match cs with
  | c :: rest => if Ascii.eqb c "." then parse_digits rest else Some ([], cs)
  | [] => Some ([], cs)
  end.

Definition parse_sign (cs : list ascii) : bool * list ascii :=
  match cs with
  | c :: rest =>
      if Ascii.eqb c "-" then (true, rest)
      else if Ascii.eqb c "+" then (false, rest)
      else (false, cs)
  | [] => (false, cs)
  end.

Definition parse_exp (cs : list ascii) : option (Z * list ascii) :=
  match cs with
  | c :: rest =>
      if Ascii.eqb c "e" || Ascii.eqb c "E" then
        let (neg, rest') := parse_sign rest in
        match parse_digits rest' with
        | Some (ds, rest'') =>
            Some ((if neg then - digits_val ds else digits_val ds)%Z, rest'')
        | None => None
        end
      else Some (0%Z, cs)
  | [] => Some (0%Z, cs)
  end.

Definition parse_number (cs : list ascii) : option (value * list ascii) :=
  let (neg, cs1) :=
    match cs with
    | c :: rest => if Ascii.eqb c "-" then (true, rest) else (false, cs)
    | [] => (false, cs)
    end in
  match parse_int cs1 with
  | None => None
  | Some (ip, cs2) =>
      match parse_frac cs2 with
      | None => None
      | Some (fp, cs3) =>
          match parse_exp cs3 with
          | None => None
          | Some (x, cs4) =>
              let m := digits_val (ip ++ fp)%list in
              Some (make_number (if neg then - m else m)%Z
                                (x - Z.of_nat (List.length fp))%Z,
                    cs4)
          end
      end
  end.

Fixpoint strip_prefix (p cs : list ascii) : option (list ascii) :=
  match p, cs with
  | [], _ => Some cs
  | a :: p', c :: cs' => if Ascii.eqb a c then strip_prefix p' cs' else None
  | _ :: _, [] => None
  end.

Definition literal (word : string) (v : value) (cs : list ascii)
  : option (value * list ascii) :=
  match strip_prefix (list_ascii_of_string word) cs with
  | Some rest => Some (v, rest)
  | None => None
  end.

(** A value that is neither an array nor an object, at the head of [cs]. *)
Definition parse_scalar (cs : list ascii) : option (value * list ascii) :=
  match cs with
  | [] => None
  | c :: _ =>
      if Ascii.eqb c "n" then literal "null" Null cs
      else if Ascii.eqb c "t" then literal "true" (Bool true) cs
      else if Ascii.eqb c "f" then literal "false" (Bool false) cs
      else if Ascii.eqb c dquote then
        match parse_string cs with
        | Some (s, rest) => Some (Str s, rest)
        | None => None
        end
      else parse_number cs
  end.

(** Recursive descent.  Of two calls in a row at least one has read a
    character, so twice the length of the text is fuel enough
    ([parse_value_fuel] below). *)
Fixpoint parse_value (fuel : nat) (cs : list ascii) {struct fuel}
  : option (value * list ascii) :=
  match fuel with
  | O => None
  | S f =>
      match expect "[" cs with
      | Some rest =>
          match expect "]" rest with
          | Some rest' => Some (Array [], rest')
          | None =>
              match parse_elements f rest with
              | Some (items, rest') => Some (Array items, rest')
              | None => None
              end
          end
      | None =>
          match expect "{" cs with
          | Some rest =>
              match expect "}" rest with
              | Some rest' => Some (Object [], rest')
              | None =>
                  match parse_members f rest [] with
                  | Some (props, rest') => Some (Object props, rest')
                  | None => None
                  end
              end
          | None => parse_scalar (skip_ws cs)
          end
      end
  end

with parse_elements (fuel : nat) (cs : list ascii) {struct fuel}
  : option (list value * list ascii) :=
  match fuel with
  | O => None
  | S f =>
      match parse_value f cs with
      | None => None
      | Some (v, rest) =>
          match expect "," rest with
          | Some rest' =>
              match parse_elements f rest' with
              | Some (vs, rest'') => Some (v :: vs, rest'')
              | None => None
              end
          | None =>
              match expect "]" rest with
              | Some rest' => Some ([v], rest')
              | None => None
              end
          end
      end
  end

with parse_members (fuel : nat) (cs : list ascii) (acc : object) {struct fuel}
  : option (object * list ascii) :=
  match fuel with
  | O => None
  | S f =>
      match parse_string (skip_ws cs) with
      | None => None
      | Some (k, rest1) =>
          match expect ":" rest1 with
          | None => None
          | Some rest2 =>
              match parse_value f rest2 with
              | None => None
              | Some (v, rest3) =>
                  match expect "," rest3 with
                  | Some rest4 => parse_members f rest4 (set k v acc)
                  | None =>
                      match expect "}" rest3 with
                      | Some rest4 => Some (set k v acc, rest4)
                      | None => None
                      end
                  end
              end
          end
      end
  end.

(** [JSON.parse(text)]: [None] stands for the [SyntaxError] it throws. *)
Definition parse (text : string) : option value :=
  let cs := list_ascii_of_string text in
  match parse_value (2 * List.length cs) cs with
  | Some (v, rest) =>
      match skip_ws rest with
      | [] => Some v
      | _ :: _ => None
      end
  | None => None
  end.

End JSON.

(** ** The instance *)

(** What a caller hands to [setStateAndEmit] as its callback: a function of
    the host, told apart by [id], or a falsy value (the argument left out,
    [undefined], [null]).  A host function is taken to return normally and
    not to call back into the instance while it runs. *)
Inductive callback : Type :=
| Fn (id : nat)
| Falsy.

(** The truthy error value a failed publish reports. *)
Inductive error : Type :=
| Error (message : string).

Inductive exn : Type :=
| SyntaxError.

(** What the instance does to its collaborators, in the order it does it. *)
Inductive effect : Type :=
| Log (line : string)
    (** [this._log(line)] *)
| Publish (topic message : string) (qos : nat)
    (** [this.client.publish(topic, message, { qos }, callback)] *)
| Call (id : nat) (arg : option error)
    (** [callback()] or [callback(error)] on the host function [id] *)
| RemoteStateChange (state : JSON.value)
    (** [this.onRemoteStateChange(state)] *)
| Uncaught (e : exn).
    (** a handler threw [e] at the code that called it *)

(** The fields of the instance, the debounce timer of
    [sendStateToClients] ([timer]: milliseconds to go before the debounced
    body runs) and the publishes the client has not completed yet
    ([inFlight]: each one holds the completion callback of [sendMessage]). *)
Record instance : Type := {
  state : JSON.object;
  callbackQueue : list callback;
  outboundTopic : string;
  inboundTopic : string;
  timer : option nat;
  inFlight : nat
}.

(** The fields after the constructor, with the topics of its options. *)
Definition new (outbound inbound : string) : instance :=
  {| state := []; callbackQueue := []; outboundTopic := outbound;
     inboundTopic := inbound; timer := None; inFlight := 0 |}.

Definition with_state (o : JSON.object) (w : instance) : instance :=
  {| state := o; callbackQueue := callbackQueue w;
     outboundTopic := outboundTopic w; inboundTopic := inboundTopic w;
     timer := timer w; inFlight := inFlight w |}.

Definition with_callbackQueue (q : list callback) (w : instance) : instance :=
  {| state := state w; callbackQueue := q;
     outboundTopic := outboundTopic w; inboundTopic := inboundTopic w;
     timer := timer w; inFlight := inFlight w |}.

Definition with_timer (t : option nat) (w : instance) : instance :=
  {| state := state w; callbackQueue := callbackQueue w;
     outboundTopic := outboundTopic w; inboundTopic := inboundTopic w;
     timer := t; inFlight := inFlight w |}.

Definition with_inFlight (n : nat) (w : instance) : instance :=
  {| state := state w; callbackQueue := callbackQueue w;
     outboundTopic := outboundTopic w; inboundTopic := inboundTopic w;
     timer := timer w; inFlight := n |}.

(** *** Methods as computations

    A method reads and writes the instance, emits effects, and returns or
    throws. *)

Inductive result (A : Type) : Type :=
| Return (a : A)
| Throw (e : exn).
Arguments Return {A} a.
Arguments Throw {A} e.

Definition M (A : Type) : Type := instance -> result A * instance * list effect.

Definition ret {A : Type} (a : A) : M A := fun w => (Return a, w, []).

Definition bind {A B : Type} (m : M A) (k : A -> M B) : M B :=
  fun w =>
    match m w with
    | (Return a, w1, out1) =>
        match k a w1 with
        | (r, w2, out2) => (r, w2, (out1 ++ out2)%list)
        end
    | (Throw e, w1, out1) => (Throw e, w1, out1)
    end.

Declare Scope method_scope.
Delimit Scope method_scope with method.
Notation "x <- m ;; k" := (bind m (fun x => k))
  (at level 61, m at next level, right associativity) : method_scope.
Notation "m ;; k" := (bind m (fun _ => k))
  (at level 61, right associativity) : method_scope.
Local Open Scope method_scope.

Definition this : M instance := fun w => (Return w, w, []).
Definition modify (f : instance -> instance) : M unit :=
  fun w => (Return tt, f w, []).
Definition emit (e : effect) : M unit := fun w => (Return tt, w, [e]).
Definition emit_all (es : list effect) : M unit := fun w => (Return tt, w, es).
Definition throw {A : Type} (e : exn) : M A := fun w => (Throw e, w, []).

Definition exec {A : Type} (m : M A) (w : instance) : instance := snd (fst (m w)).
Definition output {A : Type} (m : M A) (w : instance) : list effect := snd (m w).
Definition outcome {A : Type} (m : M A) (w : instance) : result A := fst (fst (m w)).

(** The quiet period of the debounce, in milliseconds. *)
Definition wait : nat := 20.

(** [sendMessage(payload, callback)]: the callback stays with the client
    until the publish completes. *)
Definition sendMessage (payload : JSON.object) : M unit :=
  w <- this ;;
  let message := JSON.stringify (JSON.Object payload) in
  emit (Log ("Publishing " ++ message ++ " to " ++ inboundTopic w)) ;;
  emit (Publish (inboundTopic w) message 2) ;;
  modify (fun w => with_inFlight (S (inFlight w)) w).

(** The function under the debounce: publish [this.state]. *)
Definition flush : M unit :=
  w <- this ;;
  sendMessage (state w).

(** [sendStateToClients()]: the debounced function.  Modelled from lodash's
    [debounce(func, 20)] with its default options: the call only (re)starts
    the timer, and [func] runs once [wait] milliseconds have passed without
    another call. *)
Definition sendStateToClients : M unit :=
  modify (with_timer (Some wait)).

(** [setStateAndEmit(state, callback)] *)
Definition setStateAndEmit (partial : JSON.object) (callback : callback) : M unit :=
  emit (Log ("Setting state " ++ JSON.stringify (JSON.Object partial))) ;;
  modify (fun w => with_callbackQueue (callbackQueue w ++ [callback])%list w) ;;
  modify (fun w => with_state (JSON.assign (state w) partial) w) ;;
  sendStateToClients.

(** The loop [while (callback = this.callbackQueue.shift())] of the
    completion callback: the calls it makes and the queue it leaves. *)
Fixpoint drain (err : option error) (queue : list callback)
  : list effect * list callback :=
  match queue with
  | [] => ([], [])
  | Falsy :: rest => ([], rest)
  | Fn f :: rest =>
      let (calls, kept) := drain err rest in
      (Call f err :: calls, kept)
  end.

(** The callback [sendStateToClients] gives to [sendMessage], run by the
    client with the error of the publish, if any. *)
Definition publishCompleted (err : option error) : M unit :=
  w <- this ;;
  let (calls, kept) := drain err (callbackQueue w) in
  modify (with_callbackQueue kept) ;;
  emit_all calls.

(** [onMessage(topic, buffer)]; [buffer] is the text [buffer.toString('utf8')]
    gives. *)
Definition onMessage (topic buffer : string) : M unit :=
  w <- this ;;
  if negb (String.eqb topic (outboundTopic w)) then ret tt
  else
    let payload := buffer in
    emit (Log ("Received " ++ payload ++ " from " ++ outboundTopic w)) ;;
    match JSON.parse payload with
    | None => throw SyntaxError
    | Some st => emit (RemoteStateChange st)
    end.

(** ** The event loop *)

(** What can happen to an instance: the host calls [setStateAndEmit], time
    passes, the client completes its oldest publish, the client delivers a
    message. *)
Inductive event : Type :=
| SetStateAndEmit (partial : JSON.object) (callback : callback)
| Elapse (ms : nat)
| PublishDone (err : option error)
| Message (topic buffer : string).

(** Time passing runs the debounced function once the timer is due. *)
Definition elapse (ms : nat) : M unit :=
  w <- this ;;
  match timer w with
  | None => ret tt
  | Some due =>
      if (due <=? ms)%nat
      then modify (with_timer None) ;; flush
      else modify (with_timer (Some (due - ms)))
  end.

(** The client runs a completion callback only for a publish it holds. *)
Definition publishDone (err : option error) : M unit :=
  w <- this ;;
  match inFlight w with
  | O => ret tt
  | S n => modify (with_inFlight n) ;; publishCompleted err
  end.

Definition handle (e : event) : M unit :=
  match e with
  | SetStateAndEmit partial callback => setStateAndEmit partial callback
  | Elapse ms => elapse ms
  | PublishDone err => publishDone err
  | Message topic buffer => onMessage topic buffer
  end.

(** One turn of the loop; an exception that leaves a handler does not undo
    what the handler did before it. *)
Definition step (w : instance) (e : event) : instance * list effect :=
  match handle e w with
  | (Return _, w', out) => (w', out)
  | (Throw x, w', out) => (w', (out ++ [Uncaught x])%list)
  end.

Fixpoint run (w : instance) (es : list event) : instance * list effect :=
  match es with
  | [] => (w, [])
  | e :: es' =>
      let (w1, out1) := step w e in
      let (w2, out2) := run w1 es' in
      (w2, (out1 ++ out2)%list)
  end.

(** *** Reading a trace *)

Definition calls (out : list effect) : list (nat * option error) :=
  flat_map (fun e => match e with Call f a => [(f, a)] | _ => [] end) out.

Definition publishes (out : list effect) : list (string * string * nat) :=
  flat_map (fun e => match e with Publish t m q => [(t, m, q)] | _ => [] end) out.

Definition hook_calls (out : list effect) : list JSON.value :=
  flat_map (fun e => match e with RemoteStateChange v => [v] | _ => [] end) out.

Definition logs (out : list effect) : list string :=
  flat_map (fun e => match e with Log l => [l] | _ => [] end) out.


(** The callbacks a list of events registers, in order. *)
Definition registered (es : list event) : list callback :=
  flat_map (fun e => match e with SetStateAndEmit _ c => [c] | _ => [] end) es.

(** No publish completes during [es]. *)
Definition no_completion (es : list event) : bool :=
  forallb (fun e => match e with PublishDone _ => false | _ => true end) es.

(** A burst of [setStateAndEmit] calls, each followed by the time that
    passes before the next event. *)
Definition burst (b : list (JSON.object * callback * nat)) : list event :=
  flat_map (fun i => [SetStateAndEmit (fst (fst i)) (snd (fst i)); Elapse (snd i)]) b.

Definition partials (b : list (JSON.object * callback * nat)) : list JSON.object :=
  map (fun i => fst (fst i)) b.

Definition callbacks (b : list (JSON.object * callback * nat)) : list callback :=
  map (fun i => snd (fst i)) b.

Definition gaps (b : list (JSON.object * callback * nat)) : list nat :=
  map snd b.

(** The state after the partials of a burst, merged one after the other. *)
Definition merged (st : JSON.object) (ps : list JSON.object) : JSON.object :=
  fold_left JSON.assign ps st.

(** The log line and the publish of one flush of [st]. *)
Definition flushed (w : instance) (st : JSON.object) : list effect :=
  [Log ("Publishing " ++ JSON.stringify (JSON.Object st) ++ " to " ++ inboundTopic w);
   Publish (inboundTopic w) (JSON.stringify (JSON.Object st)) 2].

(** The instance after a burst whose gaps are all shorter than the quiet
    period: everything merged and queued, the timer restarted by the last
    call and run down by the last gap. *)
Definition after_burst (w : instance) (b : list (JSON.object * callback * nat))
  : instance :=
  {| state := merged (state w) (partials b);
     callbackQueue := (callbackQueue w ++ callbacks b)%list;
     outboundTopic := outboundTopic w; inboundTopic := inboundTopic w;
     timer := Some (wait - last (gaps b) 0); inFlight := inFlight w |}.

(** The log lines of the calls of a burst. *)
Definition burst_logs (b : list (JSON.object * callback * nat)) : list effect :=
  map (fun p => Log ("Setting state " ++ JSON.stringify (JSON.Object p)))
      (partials b).


(** Every gap of the burst is shorter than the quiet period. *)
Definition within_quiet_period (b : list (JSON.object * callback * nat)) : Prop :=
  Forall (fun g => g < wait) (gaps b).


(** An association list stands for an object when no key occurs twice. *)
Definition is_object (o : JSON.object) : Prop := NoDup (JSON.keys o).

(** The value a key gets from a sequence of partials: that of the last
    partial that has the key. *)
Fixpoint last_set (k : string) (ps : list JSON.object) : option JSON.value :=
  match ps with
  | [] => None
  | p :: ps' =>
      match last_set k ps' with
      | Some v => Some v
      | None => JSON.get k p
      end
  end.

(** The instance of the test suite. *)
Definition base : instance := new "foo/bar" "bar/foo".

(** ** The rest of the class *)

(** *** Reading queues and runs *)

Definition is_fn (c : callback) : bool :=
  match c with Fn _ => true | Falsy => false end.

(** The host functions of a queue, in queue order. *)
Definition ids (q : list callback) : list nat :=
  flat_map (fun c => match c with Fn f => [f] | Falsy => [] end) q.

(** The host functions a trace calls, in the order of the calls. *)
Definition called (out : list effect) : list nat := map fst (calls out).

(** Something is on its way to drain a queue that holds callbacks: the
    debounce timer runs, or a publish is in flight. *)
Definition flush_pending (w : instance) : bool :=
  match callbackQueue w, timer w, inFlight w with
  | [], _, _ => true
  | _ :: _, Some _, _ => true
  | _ :: _, None, S _ => true
  | _ :: _, None, O => false
  end.

(** A running timer has at most the quiet period to go. *)
Definition timer_in_range (w : instance) : bool :=
  match timer w with
  | Some due => (due <=? wait)%nat
  | None => true
  end.

(** What holds of an instance as long as every callback it was given is a
    function. *)
Definition armed (w : instance) : Prop :=
  forallb is_fn (callbackQueue w) = true /\
  flush_pending w = true /\
  timer_in_range w = true.

Definition is_message (e : event) : bool :=
  match e with Message _ _ => true | _ => false end.

(** The events of a run that are not deliveries of a message. *)
Definition without_messages (es : list event) : list event :=
  filter (fun e => negb (is_message e)) es.

(** The partials of the [setStateAndEmit] calls of a run, in order. *)
Definition set_partials (es : list event) : list JSON.object :=
  flat_map (fun e => match e with SetStateAndEmit p _ => [p] | _ => [] end) es.

(** What every publish looks like: to the inbound topic, at QoS 2, the JSON
    text of an object. *)
Definition well_addressed (w : instance) (x : string * string * nat) : Prop :=
  fst (fst x) = inboundTopic w /\
  snd x = 2 /\
  exists st : JSON.object, snd (fst x) = JSON.stringify (JSON.Object st).

(** The remote states a run delivers: the parsed payloads of its messages
    on the outbound topic of [w] that are JSON, in order. *)
Definition deliveries (w : instance) (es : list event) : list JSON.value :=
  flat_map (fun e =>
              match e with
              | Message topic buffer =>
                  if String.eqb topic (outboundTopic w)
                  then match JSON.parse buffer with
                       | Some v => [v]
                       | None => []
                       end
                  else []
              | _ => []
              end) es.

(** One more flush than calls can only come from a timer that was already
    running. *)
Definition timer_credit (w : instance) : nat :=
  match timer w with Some _ => 1 | None => 0 end.

(** *** The constructor *)

Module Options.

(** The second argument of the constructor.  [port] and [host] may be left
    out; [client] tells whether a client object is supplied.  The topics
    are taken to be given. *)
Record t : Type := {
  port : option N;
  host : option string;
  client : bool;
  outboundTopic : string;
  inboundTopic : string
}.

End Options.

(** The handlers the constructor hands to the client. *)
Inductive handler : Type :=
| OnConnect
| OnError
| OnMessage
| OnSubscribeComplete.

(** What the constructor does, in the order it does it. *)
Inductive setup : Type :=
| MqttConnect (address : string)
    (** [mqtt.connect(address)] *)
| Announce (line : string)
    (** [log(line)] *)
| ClientOn (name : string) (h : handler)
    (** [this.client.on(name, h)] *)
| ClientSubscribe (topic : string) (h : handler).
    (** [this.client.subscribe(topic, h)] *)

(** [`mqtt://${host}:${port}`] with the defaults of the parameter list. *)
Definition address (o : Options.t) : string :=
  let port := match Options.port o with Some p => p | None => 1883%N end in
  let host := match Options.host o with Some h => h | None => "localhost" end in
  "mqtt://" ++ host ++ ":" ++ NilZero.string_of_uint (N.to_uint port).

(** [constructor(log, options)]: the fields, and what is done to the
    client and the logger. *)
Definition constructor (o : Options.t) : instance * list setup :=
  (new (Options.outboundTopic o) (Options.inboundTopic o),
   ((if Options.client o then [] else [MqttConnect (address o)])
    ++ [Announce ("Attempting to connect to MQTT broker at " ++ address o ++ "...");
        ClientOn "connect" OnConnect;
        ClientOn "error" OnError;
        ClientOn "message" OnMessage;
        ClientSubscribe (Options.outboundTopic o) OnSubscribeComplete])%list).

Definition subscriptions (s : list setup) : list string :=
  flat_map (fun x => match x with ClientSubscribe t _ => [t] | _ => [] end) s.

Definition connections (s : list setup) : list string :=
  flat_map (fun x => match x with MqttConnect a => [a] | _ => [] end) s.

Definition listeners (s : list setup) : list (string * handler) :=
  flat_map (fun x => match x with ClientOn n h => [(n, h)] | _ => [] end) s.

(** *** The connection handlers, [log] and [identify] *)

(** What these methods do: an effect of the kinds above, or one of their
    own. *)
Inductive notice : Type :=
| Did (e : effect)
| LoggedError (e : error)
    (** [this._log(error)] with the error object *)
| LoggedArgs (args : list string)
    (** [this._log.apply(this, args)] *)
| Confirmed (id : nat)
    (** [callback()] of [identify] on the host function [id] *)
| NotAFunction.
    (** the [TypeError] of calling a callback that is not a function *)

(** [onConnect()] *)
Definition onConnect (w : instance) : list notice :=
  [Did (Log "Connection to MQTT broker successfully established!")].

(** [onError(error)] *)
Definition onError (e : error) (w : instance) : list notice :=
  [Did (Log "Error establishing connection to MQTT broker!"); LoggedError e].

(** [onSubscribeComplete(err)] *)
Definition onSubscribeComplete (err : option error) (w : instance) : list notice :=
  match err with
  | Some e =>
      [Did (Log ("An error occurred subscribing to " ++ outboundTopic w));
       LoggedError e]
  | None => [Did (Log ("Successfully subscribed to " ++ outboundTopic w))]
  end.

(** [log(...args)] *)
Definition log (args : list string) (w : instance) : list notice :=
  [LoggedArgs args].

(** [identify(callback)] *)
Definition identify (c : callback) (w : instance) : list notice :=
  Did (Log "Identify requested!")
  :: match c with
     | Fn f => [Confirmed f]
     | Falsy => [NotAFunction]
     end.

(** Everything that can happen to an instance: the events of the loop
    above, and the calls of the methods of this part. *)
Inductive occurrence : Type :=
| Loop (e : event)
| ClientConnected
| ClientFailed (e : error)
| SubscribeCompleted (err : option error)
| HostLog (args : list string)
| Identify (c : callback).

Definition occur (w : instance) (o : occurrence) : instance * list notice :=
  match o with
  | Loop e => let (w', out) := step w e in (w', map Did out)
  | ClientConnected => (w, onConnect w)
  | ClientFailed e => (w, onError e w)
  | SubscribeCompleted err => (w, onSubscribeComplete err w)
  | HostLog args => (w, log args w)
  | Identify c => (w, identify c w)
  end.

Fixpoint run_all (w : instance) (os : list occurrence) : instance * list notice :=
  match os with
  | [] => (w, [])
  | o :: os' =>
      let (w1, out1) := occur w o in
      let (w2, out2) := run_all w1 os' in
      (w2, (out1 ++ out2)%list)
  end.

(** The events of the loop among the occurrences. *)
Definition loop_events (os : list occurrence) : list event :=
  flat_map (fun o => match o with Loop e => [e] | _ => [] end) os.

(** The effects of the loop's kinds among the notices, log lines apart. *)
Definition loop_effects (ns : list notice) : list effect :=
  flat_map (fun n => match n with
                     | Did (Log _) => []
                     | Did e => [e]
                     | _ => []
                     end) ns.

Definition without_logs (out : list effect) : list effect :=
  filter (fun e => match e with Log _ => false | _ => true end) out.

(** The callbacks [identify] confirmed, in order. *)
Definition confirmed (ns : list notice) : list nat :=
  flat_map (fun n => match n with Confirmed f => [f] | _ => [] end) ns.

Definition identified (os : list occurrence) : list nat :=
  flat_map (fun o => match o with Identify (Fn f) => [f] | _ => [] end) os.

Local Open Scope list_scope.

(** ** [JSON.parse] does not run out of fuel *)

Section Fuel.

Import JSON.

Lemma skip_ws_length (cs : list ascii) : List.length (skip_ws cs) <= List.length cs.
Proof.
  induction cs as [|c cs IH]; cbn; [lia|].
  destruct (is_ws c); cbn; lia.
Qed.

Lemma expect_length (c : ascii) (cs rest : list ascii) :
  expect c cs = Some rest -> List.length rest < List.length cs.
Proof.
  unfold expect. pose proof (skip_ws_length cs) as H.
  destruct (skip_ws cs) as [|c' r]; [discriminate|].
  destruct (Ascii.eqb c c'); [|discriminate].
  intros E. injection E as <-. cbn in H. lia.
Qed.

Lemma add_code_some (u : code) (r : option (list code * list ascii))
      (us : list code) (rest : list ascii) :
  add_code u r = Some (us, rest) -> exists us', r = Some (us', rest).
Proof.
  destruct r as [[us' rest']|]; cbn; [|discriminate].
  intros E. injection E as _ <-. now exists us'.
Qed.

Lemma parse_chars_length (n : nat) :
  forall (cs : list ascii) (us : list code) (rest : list ascii),
    List.length cs <= n ->
    parse_chars cs = Some (us, rest) -> List.length rest < List.length cs.
Proof.
  induction n as [|n IH]; intros cs us rest Hn; destruct cs as [|c cs1];
    cbn [parse_chars]; try discriminate; cbn in Hn; [lia|].
  destruct (Ascii.eqb c dquote).
  { intros E. injection E as _ <-. cbn. lia. }
  destruct (N_of_ascii c <? 32)%N; [discriminate|].
  destruct (Ascii.eqb c backslash).
  - destruct cs1 as [|e cs2]; [discriminate|].
    destruct (Ascii.eqb e "u").
    + destruct cs2 as [|h1 [|h2 [|h3 [|h4 cs3]]]]; try discriminate.
      destruct (hex4_val h1 h2 h3 h4); [|discriminate].
      intros E. apply add_code_some in E as [us' E].
      apply IH in E; cbn in *; lia.
    + destruct (simple_escape e); [|discriminate].
      intros E. apply add_code_some in E as [us' E].
      apply IH in E; cbn in *; lia.
  - intros E. apply add_code_some in E as [us' E].
    apply IH in E; cbn in *; lia.
Qed.

Lemma parse_string_length (cs : list ascii) (s : string) (rest : list ascii) :
  parse_string cs = Some (s, rest) -> List.length rest < List.length cs.
Proof.
  unfold parse_string. destruct cs as [|c cs']; [discriminate|].
  destruct (Ascii.eqb c dquote); [|discriminate].
  destruct (parse_chars cs') as [[us r]|] eqn:E; [|discriminate].
  intros H. injection H as _ <-.
  apply (parse_chars_length (List.length cs')) in E; cbn; lia.
Qed.

Lemma span_digits_length (cs : list ascii) :
  List.length (snd (span_digits cs)) <= List.length cs.
Proof.
  induction cs as [|c cs IH]; cbn; [lia|].
  destruct (is_digit c); [|cbn; lia].
  destruct (span_digits cs) as [ds r]; cbn in *. lia.
Qed.

Lemma parse_digits_length (cs ds rest : list ascii) :
  parse_digits cs = Some (ds, rest) -> List.length rest <= List.length cs.
Proof.
  unfold parse_digits. pose proof (span_digits_length cs) as H.
  destruct (span_digits cs) as [[|d ds'] r]; [discriminate|].
  intros E. injection E as _ <-. exact H.
Qed.

Lemma parse_int_length (cs ds rest : list ascii) :
  parse_int cs = Some (ds, rest) -> List.length rest < List.length cs.
Proof.
  unfold parse_int. destruct cs as [|c r]; [discriminate|].
  destruct (Ascii.eqb c "0").
  { intros E. injection E as _ <-. cbn. lia. }
  destruct (is_digit c) eqn:D; [|discriminate].
  cbn [span_digits]. rewrite D.
  pose proof (span_digits_length r) as H.
  destruct (span_digits r) as [ds' r']. intros E. injection E as _ <-.
  cbn in *. lia.
Qed.

Lemma parse_frac_length (cs ds rest : list ascii) :
  parse_frac cs = Some (ds, rest) -> List.length rest <= List.length cs.
Proof.
  unfold parse_frac. destruct cs as [|c r].
  { intros E. injection E as _ <-. lia. }
  destruct (Ascii.eqb c ".").
  - intros E. apply parse_digits_length in E. cbn. lia.
  - intros E. injection E as _ <-. lia.
Qed.

Lemma parse_sign_length (cs : list ascii) :
  List.length (snd (parse_sign cs)) <= List.length cs.
Proof.
  unfold parse_sign. destruct cs as [|c r]; [cbn; lia|].
  destruct (Ascii.eqb c "-"); [cbn; lia|].
  destruct (Ascii.eqb c "+"); cbn; lia.
Qed.

Lemma parse_exp_length (cs : list ascii) (x : Z) (rest : list ascii) :
  parse_exp cs = Some (x, rest) -> List.length rest <= List.length cs.
Proof.
  unfold parse_exp. destruct cs as [|c r].
  { intros E. injection E as _ <-. lia. }
  destruct (Ascii.eqb c "e" || Ascii.eqb c "E").
  - pose proof (parse_sign_length r) as H.
    destruct (parse_sign r) as [neg r']. cbn in H.
    destruct (parse_digits r') as [[ds r'']|] eqn:E; [|discriminate].
    intros E'. injection E' as _ <-.
    apply parse_digits_length in E. cbn. lia.
  - intros E. injection E as _ <-. lia.
Qed.

Lemma parse_number_length (cs : list ascii) (v : value) (rest : list ascii) :
  parse_number cs = Some (v, rest) -> List.length rest < List.length cs.
Proof.
  unfold parse_number.
  assert (H : exists neg cs1,
             match cs with
             | c :: r => if Ascii.eqb c "-" then (true, r) else (false, cs)
             | [] => (false, cs)
             end = (neg, cs1) /\ List.length cs1 <= List.length cs).
  { destruct cs as [|c r]; [now exists false, []|].
    destruct (Ascii.eqb c "-");
      [exists true, r | exists false, (c :: r)]; cbn; split; (reflexivity || lia). }
  destruct H as (neg & cs1 & -> & H1).
  destruct (parse_int cs1) as [[ip cs2]|] eqn:E2; [|discriminate].
  destruct (parse_frac cs2) as [[fp cs3]|] eqn:E3; [|discriminate].
  destruct (parse_exp cs3) as [[x cs4]|] eqn:E4; [|discriminate].
  intros E. injection E as _ <-.
  apply parse_int_length in E2. apply parse_frac_length in E3.
  apply parse_exp_length in E4. lia.
Qed.

Lemma strip_prefix_length (p cs rest : list ascii) :
  strip_prefix p cs = Some rest -> List.length rest + List.length p = List.length cs.
Proof.
  revert cs. induction p as [|a p IH]; intros cs; cbn.
  - intros E. injection E as <-. lia.
  - destruct cs as [|c cs']; [discriminate|].
    destruct (Ascii.eqb a c); [|discriminate].
    intros E. apply IH in E. cbn. lia.
Qed.

Lemma literal_length (word : string) (v v' : value) (cs rest : list ascii) :
  word <> EmptyString ->
  literal word v cs = Some (v', rest) -> List.length rest < List.length cs.
Proof.
  unfold literal. intros Hne.
  destruct (strip_prefix (list_ascii_of_string word) cs) as [r|] eqn:E;
    [|discriminate].
  intros H. injection H as _ <-. apply strip_prefix_length in E.
  destruct word; [congruence|]. cbn in E. lia.
Qed.

Lemma parse_scalar_length (cs : list ascii) (v : value) (rest : list ascii) :
  parse_scalar cs = Some (v, rest) -> List.length rest < List.length cs.
Proof.
  unfold parse_scalar. destruct cs as [|c r]; [discriminate|].
  destruct (Ascii.eqb c "n"); [apply literal_length; discriminate|].
  destruct (Ascii.eqb c "t"); [apply literal_length; discriminate|].
  destruct (Ascii.eqb c "f"); [apply literal_length; discriminate|].
  destruct (Ascii.eqb c dquote); [|apply parse_number_length].
  destruct (parse_string (c :: r)) as [[s r']|] eqn:E; [|discriminate].
  intros H. injection H as _ <-. exact (parse_string_length _ _ _ E).
Qed.

(** A successful parse reads at least one character, and any fuel from
    twice the number of characters read gives the same result. *)
Lemma parse_fuel (n : nat) :
  (forall cs v rest,
      parse_value n cs = Some (v, rest) ->
      List.length rest < List.length cs /\
      forall m, 2 * (List.length cs - List.length rest) <= m ->
                parse_value m cs = Some (v, rest)) /\
  (forall cs vs rest,
      parse_elements n cs = Some (vs, rest) ->
      List.length rest < List.length cs /\
      forall m, 2 * (List.length cs - List.length rest) <= m ->
                parse_elements m cs = Some (vs, rest)) /\
  (forall cs acc o rest,
      parse_members n cs acc = Some (o, rest) ->
      List.length rest < List.length cs /\
      forall m, 2 * (List.length cs - List.length rest) <= m ->
                parse_members m cs acc = Some (o, rest)).
Proof.
  induction n as [|n (IHv & IHe & IHm)]; [repeat split; discriminate|].
  split; [|split].
  - intros cs v rest. cbn [parse_value].
    destruct (expect "[" cs) as [r1|] eqn:E1.
    + pose proof (expect_length _ _ _ E1) as L1.
      destruct (expect "]" r1) as [r2|] eqn:E2.
      * intros E. injection E as <- <-.
        pose proof (expect_length _ _ _ E2) as L2. split; [lia|].
        intros [|m] Hm; [lia|]. cbn [parse_value]. now rewrite E1, E2.
      * destruct (parse_elements n r1) as [[items r2]|] eqn:E3; [|discriminate].
        intros E. injection E as <- <-.
        destruct (IHe _ _ _ E3) as (L3 & F3). split; [lia|].
        intros [|m] Hm; [lia|]. cbn [parse_value].
        rewrite E1, E2, F3 by lia. reflexivity.
    + destruct (expect "{" cs) as [r1|] eqn:E1'.
      * pose proof (expect_length _ _ _ E1') as L1.
        destruct (expect "}" r1) as [r2|] eqn:E2.
        -- intros E. injection E as <- <-.
           pose proof (expect_length _ _ _ E2) as L2. split; [lia|].
           intros [|m] Hm; [lia|]. cbn [parse_value]. now rewrite E1, E1', E2.
        -- destruct (parse_members n r1 []) as [[props r2]|] eqn:E3;
             [|discriminate].
           intros E. injection E as <- <-.
           destruct (IHm _ _ _ _ E3) as (L3 & F3). split; [lia|].
           intros [|m] Hm; [lia|]. cbn [parse_value].
           rewrite E1, E1', E2, F3 by lia. reflexivity.
      * intros E. pose proof (parse_scalar_length _ _ _ E) as L.
        pose proof (skip_ws_length cs) as W. split; [lia|].
        intros [|m] Hm; [lia|]. cbn [parse_value]. now rewrite E1, E1'.
  - intros cs vs rest. cbn [parse_elements].
    destruct (parse_value n cs) as [[v r1]|] eqn:E1; [|discriminate].
    destruct (IHv _ _ _ E1) as (L1 & F1).
    destruct (expect "," r1) as [r2|] eqn:E2.
    + pose proof (expect_length _ _ _ E2) as L2.
      destruct (parse_elements n r2) as [[vs' r3]|] eqn:E3; [|discriminate].
      intros E. injection E as <- <-.
      destruct (IHe _ _ _ E3) as (L3 & F3). split; [lia|].
      intros [|m] Hm; [lia|]. cbn [parse_elements].
      rewrite F1, E2, F3 by lia. reflexivity.
    + destruct (expect "]" r1) as [r2|] eqn:E3; [|discriminate].
      pose proof (expect_length _ _ _ E3) as L3.
      intros E. injection E as <- <-. split; [lia|].
      intros [|m] Hm; [lia|]. cbn [parse_elements].
      rewrite F1, E2, E3 by lia. reflexivity.
  - intros cs acc o rest. cbn [parse_members].
    pose proof (skip_ws_length cs) as W.
    destruct (parse_string (skip_ws cs)) as [[k r1]|] eqn:E1; [|discriminate].
    pose proof (parse_string_length _ _ _ E1) as L1.
    destruct (expect ":" r1) as [r2|] eqn:E2; [|discriminate].
    pose proof (expect_length _ _ _ E2) as L2.
    destruct (parse_value n r2) as [[v r3]|] eqn:E3; [|discriminate].
    destruct (IHv _ _ _ E3) as (L3 & F3).
    destruct (expect "," r3) as [r4|] eqn:E4.
    + pose proof (expect_length _ _ _ E4) as L4.
      intros E. destruct (IHm _ _ _ _ E) as (L5 & F5). split; [lia|].
      intros [|m] Hm; [lia|]. cbn [parse_members].
      rewrite E1, E2, F3, E4 by lia. apply F5. lia.
    + destruct (expect "}" r3) as [r4|] eqn:E5; [|discriminate].
      pose proof (expect_length _ _ _ E5) as L5.
      intros E. injection E as <- <-. split; [lia|].
      intros [|m] Hm; [lia|]. cbn [parse_members].
      rewrite E1, E2, F3, E4, E5 by lia. reflexivity.
Qed.

(** Whatever some amount of fuel parses, [parse] parses. *)
Lemma parse_value_fuel (text : string) (n : nat) (v : value)
      (rest : list ascii) :
  parse_value n (list_ascii_of_string text) = Some (v, rest) ->
  skip_ws rest = [] ->
  parse text = Some v.
Proof.
  intros E W. destruct (parse_fuel n) as (Hv & _ & _).
  destruct (Hv _ _ _ E) as (_ & F). unfold parse.
  rewrite F by lia. now rewrite W.
Qed.

End Fuel.

(** ** The runtime functions and the test suite, replayed *)

Example stringify_object :
  list_ascii_of_string (JSON.stringify (JSON.Object [("foo", JSON.Bool true)]))
  = ["{"; JSON.dquote; "f"; "o"; "o"; JSON.dquote; ":"; "t"; "r"; "u"; "e"; "}"]%char.
Proof. reflexivity. Qed.

Example stringify_numbers :
  JSON.stringify (JSON.Array [JSON.Number 50 0; JSON.Number 15 (-1);
                              JSON.Number (-5) (-7); JSON.Number 1 21;
                              JSON.Number 12 19; JSON.Null])
  = "[50,1.5,-5e-7,1e+21,120000000000000000000,null]".
Proof. reflexivity. Qed.

Example parse_array :
  JSON.parse " [1, 2.50, -0, 1e3, [true, null], {}] "
  = Some (JSON.Array [JSON.Number 1 0; JSON.Number 25 (-1); JSON.Number 0 0;
                      JSON.Number 1 3; JSON.Array [JSON.Bool true; JSON.Null];
                      JSON.Object []]).
Proof. reflexivity. Qed.

Example parse_rejects :
  map JSON.parse ["{"; ""; "[1,]"; "01"; "1."; ".5"; "tru"; "true false"; "{1:2}"]
  = [None; None; None; None; None; None; None; None; None].
Proof. reflexivity. Qed.

Example parse_stringify :
  let v := JSON.Object [("1", JSON.Array []); ("foo", JSON.Str "bar");
                        ("on", JSON.Bool false)] in
  JSON.parse (JSON.stringify v) = Some v.
Proof. reflexivity. Qed.

(** Array-index keys come first, in ascending order; the others keep the
    order in which they were set. *)
Example assign_property_order :
  JSON.keys (JSON.assign [("b", JSON.Null)]
               [("10", JSON.Null); ("a", JSON.Null); ("2", JSON.Null);
                ("b", JSON.Bool true); ("01", JSON.Null)])
  = ["2"; "10"; "b"; "a"; "01"].
Proof. reflexivity. Qed.

(** test('setStateAndEmit()') *)
Example test_setStateAndEmit :
  step base (SetStateAndEmit [("foo", JSON.Str "bar")] (Fn 0))
  = ({| state := [("foo", JSON.Str "bar")]; callbackQueue := [Fn 0];
        outboundTopic := "foo/bar"; inboundTopic := "bar/foo";
        timer := Some 20; inFlight := 0 |},
     [Log ("Setting state "
           ++ JSON.stringify (JSON.Object [("foo", JSON.Str "bar")]))%string]).
Proof. reflexivity. Qed.

(** test('sendStateToClients() success'): two direct calls of the debounced
    function, 40 ms, a client that completes at once. *)
Example test_sendStateToClients_success :
  let w := with_callbackQueue [Fn 1; Fn 2] (with_state [("foo", JSON.Bool true)] base) in
  let armed := exec (sendStateToClients ;; sendStateToClients) w in
  publishes (snd (run armed [Elapse 40; PublishDone None]))
  = [("bar/foo", JSON.stringify (JSON.Object [("foo", JSON.Bool true)]), 2)] /\
  calls (snd (run armed [Elapse 40; PublishDone None])) = [(1, None); (2, None)].
Proof. split; reflexivity. Qed.

(** test('sendStateToClients() error') *)
Example test_sendStateToClients_error :
  let w := with_callbackQueue [Fn 1; Fn 2] (with_state [("foo", JSON.Bool true)] base) in
  let armed := exec (sendStateToClients ;; sendStateToClients) w in
  let failed := Some (Error "Failed to send message!") in
  calls (snd (run armed [Elapse 40; PublishDone failed]))
  = [(1, failed); (2, failed)].
Proof. reflexivity. Qed.

(** test('sendMessage()') *)
Example test_sendMessage :
  output (sendMessage [("foo", JSON.Bool true)]) base
  = flushed base [("foo", JSON.Bool true)].
Proof. reflexivity. Qed.

(** test('onMessage() correct topic') *)
Example test_onMessage_correct_topic :
  let payload := JSON.Object [("foo", JSON.Str "bar")] in
  snd (step base (Message "foo/bar" (JSON.stringify payload)))
  = [Log ("Received " ++ JSON.stringify payload ++ " from foo/bar")%string;
     RemoteStateChange payload].
Proof. reflexivity. Qed.

(** test('onMessage() incorrect topic') *)
Example test_onMessage_incorrect_topic :
  step base (Message "foo" "") = (base, []).
Proof. reflexivity. Qed.

(** ** The handlers, step by step *)

Lemma setStateAndEmit_eq (partial : JSON.object) (c : callback) (w : instance) :
  setStateAndEmit partial c w =
  (Return tt,
   {| state := JSON.assign (state w) partial;
      callbackQueue := callbackQueue w ++ [c];
      outboundTopic := outboundTopic w; inboundTopic := inboundTopic w;
      timer := Some wait; inFlight := inFlight w |},
   [Log ("Setting state " ++ JSON.stringify (JSON.Object partial))%string]).
Proof. reflexivity. Qed.

Lemma step_set (partial : JSON.object) (c : callback) (w : instance) :
  step w (SetStateAndEmit partial c) =
  ({| state := JSON.assign (state w) partial;
      callbackQueue := callbackQueue w ++ [c];
      outboundTopic := outboundTopic w; inboundTopic := inboundTopic w;
      timer := Some wait; inFlight := inFlight w |},
   [Log ("Setting state " ++ JSON.stringify (JSON.Object partial))%string]).
Proof. reflexivity. Qed.

Lemma step_elapse_idle (ms : nat) (w : instance) :
  timer w = None -> step w (Elapse ms) = (w, []).
Proof.
  intros H. unfold step, handle, elapse, bind, this. rewrite H. reflexivity.
Qed.

Lemma step_elapse_early (ms due : nat) (w : instance) :
  timer w = Some due -> ms < due ->
  step w (Elapse ms) = (with_timer (Some (due - ms)) w, []).
Proof.
  intros H Hlt. unfold step, handle, elapse, bind, this. rewrite H.
  destruct (Nat.leb_spec due ms); [lia | reflexivity].
Qed.

Lemma step_elapse_due (ms due : nat) (w : instance) :
  timer w = Some due -> due <= ms ->
  step w (Elapse ms) =
  (with_inFlight (S (inFlight w)) (with_timer None w), flushed w (state w)).
Proof.
  intros H Hle. unfold step, handle, elapse, bind, this. rewrite H.
  destruct (Nat.leb_spec due ms); [reflexivity | lia].
Qed.

Lemma step_done_none (err : option error) (w : instance) :
  inFlight w = 0 -> step w (PublishDone err) = (w, []).
Proof.
  intros H. unfold step, handle, publishDone, bind, this. rewrite H. reflexivity.
Qed.

Lemma step_done (err : option error) (n : nat) (w : instance) :
  inFlight w = S n ->
  step w (PublishDone err) =
  (with_callbackQueue (snd (drain err (callbackQueue w))) (with_inFlight n w),
   fst (drain err (callbackQueue w))).
Proof.
  intros H. unfold step, handle, publishDone, publishCompleted, bind, this.
  rewrite H. cbn. destruct (drain err (callbackQueue w)) as [cs kept].
  reflexivity.
Qed.

(** ** Objects: lookup after a write *)

Section Objects.

Import JSON.

Lemma get_none_iff (k : string) (o : object) :
  get k o = None <-> ~ In k (keys o).
Proof.
  induction o as [|[k' v'] o IH]; cbn.
  - tauto.
  - destruct (String.eqb_spec k k') as [->|Hne].
    + split; [discriminate | intros H; exfalso; apply H; now left].
    + rewrite IH. split.
      * intros H [E|I]; [congruence | tauto].
      * intros H I. apply H. now right.
Qed.

Lemma get_app (k : string) (o1 o2 : object) :
  get k (o1 ++ o2) =
  match get k o1 with Some v => Some v | None => get k o2 end.
Proof.
  induction o1 as [|[k' v'] o1 IH]; cbn; [reflexivity|].
  destruct (String.eqb k k'); [reflexivity | exact IH].
Qed.

Lemma get_update_prop (k k' : string) (v : value) (o : object) :
  get k (update_prop k' v o) =
  if String.eqb k k'
  then match get k' o with Some _ => Some v | None => None end
  else get k o.
Proof.
  induction o as [|[k1 v1] o IH]; cbn.
  - destruct (String.eqb k k'); reflexivity.
  - destruct (String.eqb_spec k' k1) as [->|Hne]; cbn.
    + destruct (String.eqb_spec k k1); reflexivity.
    + destruct (String.eqb_spec k k1) as [->|Hne1].
      * destruct (String.eqb_spec k1 k'); [congruence | reflexivity].
      * exact IH.
Qed.

Lemma get_add_prop (k k' : string) (v : value) (o : object) :
  get k' o = None ->
  get k (add_prop k' v o) = if String.eqb k k' then Some v else get k o.
Proof.
  induction o as [|[k1 v1] o IH]; cbn; intros Hnone.
  - destruct (String.eqb k k'); reflexivity.
  - destruct (String.eqb_spec k' k1) as [->|Hne]; [discriminate|].
    assert (Hcons : get k ((k1, v1) :: add_prop k' v o) =
                    if String.eqb k k' then Some v else get k ((k1, v1) :: o)).
    { cbn. rewrite (IH Hnone).
      destruct (String.eqb_spec k k1) as [->|Hne1];
        [destruct (String.eqb_spec k1 k'); [congruence | reflexivity]
        | reflexivity]. }
    assert (Hhead : get k ((k', v) :: (k1, v1) :: o) =
                    if String.eqb k k' then Some v else get k ((k1, v1) :: o)).
    { reflexivity. }
    destruct (array_index k') as [i|]; [destruct (array_index k1) as [i1|]|].
    + destruct (i <? i1)%Z; assumption.
    + assumption.
    + assumption.
Qed.

(** Reading [k] after [o[k'] = v]. *)
Lemma get_set (k k' : string) (v : value) (o : object) :
  get k (set k' v o) = if String.eqb k k' then Some v else get k o.
Proof.
  unfold set, has. destruct (get k' o) as [x|] eqn:E.
  - rewrite get_update_prop, E. reflexivity.
  - apply get_add_prop, E.
Qed.

(** Reading [k] after [Object.assign(target, source)]: the last binding
    of [k] in [source] wins, else the target's value stays. *)
Lemma get_assign (k : string) (source target : object) :
  get k (assign target source) =
  match get k (rev source) with Some v => Some v | None => get k target end.
Proof.
  unfold assign. revert target.
  induction source as [|[k' v'] source IH]; intros target; cbn; [reflexivity|].
  rewrite IH, get_app, get_set. cbn.
  destruct (get k (rev source)); [reflexivity|].
  destruct (String.eqb k k'); reflexivity.
Qed.

Lemma keys_rev (o : object) : keys (rev o) = rev (keys o).
Proof. unfold keys. apply map_rev. Qed.

Lemma get_rev (k : string) (o : object) :
  is_object o -> get k (rev o) = get k o.
Proof.
  unfold is_object. induction o as [|[k' v'] o IH]; cbn; intros Hnd;
    [reflexivity|].
  inversion Hnd as [|? ? Hnotin Hnd']; subst.
  rewrite get_app, (IH Hnd'). cbn.
  destruct (String.eqb_spec k k') as [->|Hne].
  - apply get_none_iff in Hnotin. rewrite Hnotin. reflexivity.
  - destruct (get k o); reflexivity.
Qed.

Lemma assign_nil (target : object) : assign target [] = target.
Proof. reflexivity. Qed.

Lemma keys_update_prop (k : string) (v : value) (o : object) :
  keys (update_prop k v o) = keys o.
Proof.
  unfold keys. induction o as [|[k' v'] o IH]; cbn; [reflexivity|].
  destruct (String.eqb k k'); cbn; [reflexivity | now f_equal].
Qed.

Lemma in_keys_add_prop (k k' : string) (v : value) (o : object) :
  In k (keys (add_prop k' v o)) <-> k' = k \/ In k (keys o).
Proof.
  induction o as [|[k1 v1] o IH]; cbn; [tauto|].
  assert (Hcons : In k (keys ((k1, v1) :: add_prop k' v o))
                  <-> k' = k \/ k1 = k \/ In k (keys o)).
  { cbn. rewrite IH. tauto. }
  destruct (array_index k') as [i|]; [destruct (array_index k1) as [i1|]|];
    try exact Hcons; try (cbn; tauto).
  destruct (i <? i1)%Z; [cbn; tauto | exact Hcons].
Qed.

Lemma is_object_add_prop (k : string) (v : value) (o : object) :
  is_object o -> ~ In k (keys o) -> is_object (add_prop k v o).
Proof.
  unfold is_object. induction o as [|[k1 v1] o IH]; cbn; intros Hnd Hnotin.
  - constructor; [tauto | constructor].
  - inversion Hnd as [|? ? Hk1 Hnd']; subst.
    assert (Hhead : NoDup (keys ((k, v) :: (k1, v1) :: o))).
    { cbn. constructor; [exact Hnotin | exact Hnd]. }
    assert (Hcons : NoDup (keys ((k1, v1) :: add_prop k v o))).
    { cbn. constructor; [|apply IH; tauto].
      rewrite in_keys_add_prop. intros [E|I]; [subst; tauto | tauto]. }
    destruct (array_index k) as [i|]; [destruct (array_index k1) as [i1|]|];
      try assumption.
    destruct (i <? i1)%Z; assumption.
Qed.

(** Setting a property, and so [Object.assign], keeps an object an
    object. *)
Lemma is_object_set (k : string) (v : value) (o : object) :
  is_object o -> is_object (set k v o).
Proof.
  intros Ho. unfold set, has. destruct (get k o) eqn:E.
  - unfold is_object. now rewrite keys_update_prop.
  - apply is_object_add_prop; [exact Ho | now apply get_none_iff].
Qed.

Lemma is_object_assign (source target : object) :
  is_object target -> is_object (assign target source).
Proof.
  unfold assign. revert target.
  induction source as [|[k v] source IH]; intros target Ho; cbn; [exact Ho|].
  apply IH, is_object_set, Ho.
Qed.

Lemma get_merged (k : string) (ps : list object) (st : object) :
  Forall is_object ps ->
  get k (merged st ps) =
  match last_set k ps with Some v => Some v | None => get k st end.
Proof.
  unfold merged. revert st.
  induction ps as [|p ps IH]; intros st Hwf; cbn; [reflexivity|].
  inversion Hwf as [|? ? Hp Hps]; subst.
  rewrite (IH _ Hps). destruct (last_set k ps); [reflexivity|].
  rewrite get_assign, (get_rev _ _ Hp). reflexivity.
Qed.

End Objects.

(** ** Traces and the drain loop *)

Lemma calls_app (a b : list effect) : calls (a ++ b) = calls a ++ calls b.
Proof. apply flat_map_app. Qed.

Lemma publishes_app (a b : list effect) :
  publishes (a ++ b) = publishes a ++ publishes b.
Proof. apply flat_map_app. Qed.


Lemma calls_map_call (err : option error) (fs : list nat) :
  calls (map (fun f => Call f err) fs) = map (fun f => (f, err)) fs.
Proof. induction fs as [|f fs IH]; cbn; [reflexivity | now rewrite <- IH]. Qed.


Lemma calls_flushed (w : instance) (st : JSON.object) : calls (flushed w st) = [].
Proof. reflexivity. Qed.

Lemma run_app (es1 es2 : list event) (w : instance) :
  run w (es1 ++ es2) =
  (fst (run (fst (run w es1)) es2),
   snd (run w es1) ++ snd (run (fst (run w es1)) es2)).
Proof.
  revert w. induction es1 as [|e es1 IH]; intros w; cbn.
  - destruct (run w es2); reflexivity.
  - destruct (step w e) as [w1 out1]. rewrite IH.
    destruct (run w1 es1) as [w2 out2]; cbn.
    destruct (run w2 es2) as [w3 out3]; cbn.
    now rewrite app_assoc.
Qed.

Lemma run_cons (e : event) (es : list event) (w : instance) :
  run w (e :: es) =
  (fst (run (fst (step w e)) es), snd (step w e) ++ snd (run (fst (step w e)) es)).
Proof.
  cbn. destruct (step w e) as [w1 out1]; cbn.
  destruct (run w1 es); reflexivity.
Qed.

(** A queue of functions is called through, in order, and emptied. *)
Lemma drain_functions (err : option error) (fs : list nat) :
  drain err (map Fn fs) = (map (fun f => Call f err) fs, []).
Proof.
  induction fs as [|f fs IH]; cbn; [reflexivity | now rewrite IH].
Qed.

(** The loop ends at the first falsy entry, which it has already shifted
    out; what is queued behind it stays. *)
Lemma drain_falsy (err : option error) (fs : list nat) (post : list callback) :
  drain err (map Fn fs ++ Falsy :: post) = (map (fun f => Call f err) fs, post).
Proof.
  induction fs as [|f fs IH]; cbn; [reflexivity | now rewrite IH].
Qed.



(** ** Turns of the loop *)

Lemma step_topics (w : instance) (e : event) :
  inboundTopic (fst (step w e)) = inboundTopic w /\
  outboundTopic (fst (step w e)) = outboundTopic w.
Proof.
  destruct e as [p c|ms|err|topic buffer].
  - rewrite step_set. cbn. tauto.
  - destruct (timer w) as [due|] eqn:T.
    + destruct (Nat.le_gt_cases due ms) as [Hle|Hgt].
      * rewrite (step_elapse_due _ _ _ T Hle). cbn. tauto.
      * rewrite (step_elapse_early _ _ _ T Hgt). cbn. tauto.
    + rewrite (step_elapse_idle _ _ T). tauto.
  - destruct (inFlight w) as [|n] eqn:F.
    + rewrite (step_done_none _ _ F). tauto.
    + rewrite (step_done _ _ _ F). cbn. tauto.
  - unfold step, handle, onMessage, bind, this.
    destruct (negb (String.eqb topic (outboundTopic w))); cbn; [tauto|].
    destruct (JSON.parse buffer); cbn; tauto.
Qed.

(** A message changes nothing in the instance and calls no callback. *)
Lemma step_message (w : instance) (topic buffer : string) :
  fst (step w (Message topic buffer)) = w /\
  calls (snd (step w (Message topic buffer))) = [] /\
  publishes (snd (step w (Message topic buffer))) = [].
Proof.
  unfold step, handle, onMessage, bind, this.
  destruct (negb (String.eqb topic (outboundTopic w))); cbn; [tauto|].
  destruct (JSON.parse buffer); cbn; tauto.
Qed.

(** While no publish completes, the queue only grows by what is
    registered, nothing is called, and no publish leaves the client. *)
Lemma step_quiet (w : instance) (e : event) :
  no_completion [e] = true ->
  callbackQueue (fst (step w e)) = callbackQueue w ++ registered [e] /\
  calls (snd (step w e)) = [] /\
  inFlight w <= inFlight (fst (step w e)).
Proof.
  destruct e as [p c|ms|err|topic buffer]; cbn [no_completion forallb];
    intros Hq; try discriminate.
  - rewrite step_set. cbn. auto.
  - cbn [registered flat_map]. rewrite app_nil_r.
    destruct (timer w) as [due|] eqn:T.
    + destruct (Nat.le_gt_cases due ms) as [Hle|Hgt].
      * rewrite (step_elapse_due _ _ _ T Hle). cbn. auto.
      * rewrite (step_elapse_early _ _ _ T Hgt). cbn. auto.
    + rewrite (step_elapse_idle _ _ T). cbn. auto.
  - cbn [registered flat_map]. rewrite app_nil_r.
    destruct (step_message w topic buffer) as (-> & -> & _). auto.
Qed.

Lemma run_quiet (es : list event) (w : instance) :
  no_completion es = true ->
  callbackQueue (fst (run w es)) = callbackQueue w ++ registered es /\
  calls (snd (run w es)) = [] /\
  inFlight w <= inFlight (fst (run w es)).
Proof.
  revert w. induction es as [|e es IH]; intros w Hq.
  - cbn. rewrite app_nil_r. auto.
  - rewrite run_cons. cbn [fst snd].
    cbn [no_completion forallb] in Hq. apply andb_prop in Hq as [He Hes].
    destruct (step_quiet w e) as (Q1 & C1 & F1).
    { cbn [no_completion forallb]. now rewrite He. }
    destruct (IH (fst (step w e)) Hes) as (Q2 & C2 & F2).
    assert (R : registered (e :: es) = registered [e] ++ registered es).
    { unfold registered. cbn [flat_map]. now rewrite app_nil_r. }
    rewrite Q2, Q1, calls_app, C1, C2, <- app_assoc, R.
    repeat split; try reflexivity; lia.
Qed.

(** A completion on a queue of functions calls each of them once, in
    queue order, with the error of the publish, and empties the queue. *)
Lemma step_done_functions (w : instance) (fs : list nat) (err : option error) :
  callbackQueue w = map Fn fs -> inFlight w <> 0 ->
  snd (step w (PublishDone err)) = map (fun f => Call f err) fs /\
  callbackQueue (fst (step w (PublishDone err))) = [].
Proof.
  intros Q F. destruct (inFlight w) as [|n] eqn:E; [congruence|].
  rewrite (step_done _ _ _ E), Q, drain_functions. cbn. auto.
Qed.

(** The same after any events during which no publish completes: the
    queue then holds what it held before and what the events registered. *)
Lemma completion_after_quiet (w : instance) (es : list event)
      (hs : list nat) (err : option error) :
  no_completion es = true ->
  callbackQueue w ++ registered es = map Fn hs ->
  inFlight (fst (run w es)) <> 0 ->
  calls (snd (run w es)) = [] /\
  snd (step (fst (run w es)) (PublishDone err)) = map (fun f => Call f err) hs /\
  callbackQueue (fst (step (fst (run w es)) (PublishDone err))) = [].
Proof.
  intros Hq Hreg Hfl. destruct (run_quiet es w Hq) as (Q & C & _).
  split; [exact C|]. apply step_done_functions; [congruence | exact Hfl].
Qed.

(** ** Bursts *)

Lemma run_burst (b : list (JSON.object * callback * nat)) (w : instance) :
  b <> [] -> within_quiet_period b ->
  run w (burst b) = (after_burst w b, burst_logs b).
Proof.
  unfold within_quiet_period. revert w.
  induction b as [|[[p c] g] b IH]; intros w Hne Hgaps; [congruence|].
  inversion Hgaps as [|? ? Hg Hgaps']; subst. cbn in Hg.
  change (burst (((p, c), g) :: b))
    with (SetStateAndEmit p c :: Elapse g :: burst b).
  rewrite run_cons, step_set. cbn [fst snd].
  rewrite run_cons, (step_elapse_early g wait) by (reflexivity || exact Hg).
  cbn [fst snd app].
  destruct b as [|i b'].
  - reflexivity.
  - rewrite IH by (congruence || assumption).
    unfold after_burst, burst_logs. cbn [fst snd partials callbacks gaps map
      merged fold_left state callbackQueue outboundTopic inboundTopic inFlight
      with_timer last]. rewrite <- app_assoc. reflexivity.
Qed.

(** Once the quiet period has passed after a burst, the merged state is
    published, once. *)
Lemma run_burst_flush (b : list (JSON.object * callback * nat)) (w : instance)
      (d : nat) :
  b <> [] -> within_quiet_period b -> wait <= d ->
  run w (burst b ++ [Elapse d]) =
  (with_inFlight (S (inFlight w)) (with_timer None (after_burst w b)),
   burst_logs b ++ flushed w (merged (state w) (partials b))).
Proof.
  intros Hne Hgaps Hd. rewrite run_app, (run_burst b w Hne Hgaps). cbn [fst snd].
  rewrite run_cons, (step_elapse_due d (wait - last (gaps b) 0));
    [reflexivity | reflexivity | lia].
Qed.

Lemma publishes_burst_logs (b : list (JSON.object * callback * nat)) :
  publishes (burst_logs b) = [].
Proof.
  unfold burst_logs. induction (partials b) as [|p ps IH]; cbn; [reflexivity | exact IH].
Qed.







Lemma get_rev_none (k : string) (o : JSON.object) :
  JSON.get k o = None -> JSON.get k (rev o) = None.
Proof.
  rewrite !get_none_iff, keys_rev. intros H I. apply H, in_rev, I.
Qed.

(** ** The claims *)

(** C1, as the code has it.  The flush captures nothing: the completion
    callback drains [this.callbackQueue] as it stands when the publish
    completes.  With a publish in flight and only functions queued, the
    callbacks that [setStateAndEmit] registers before the completion are
    called by that completion, after the ones queued earlier, each once and
    with the outcome of the publish that was in flight; the queue is then
    empty, so no later completion calls any of them again. *)
Theorem completion_drains_live_queue :
  forall (w : instance) (fs : list nat) (es : list event) (gs : list nat)
         (err : option error),
    callbackQueue w = map Fn fs ->
    inFlight w <> 0 ->
    no_completion es = true ->
    registered es = map Fn gs ->
    calls (snd (run w es)) = [] /\
    snd (step (fst (run w es)) (PublishDone err))
    = map (fun f => Call f err) (fs ++ gs) /\
    callbackQueue (fst (step (fst (run w es)) (PublishDone err))) = [] /\
    forall err' : option error,
      snd (step (fst (step (fst (run w es)) (PublishDone err))) (PublishDone err'))
      = [].
Proof.
  intros w fs es gs err Q F Hq Hreg.
  assert (F' : inFlight (fst (run w es)) <> 0).
  { destruct (run_quiet es w Hq) as (_ & _ & Hle). lia. }
  destruct (completion_after_quiet w es (fs ++ gs) err Hq) as (C & D & E);
    [rewrite Q, Hreg; symmetry; apply map_app | exact F' |].
  repeat split; try assumption.
  intros err'.
  set (w2 := fst (step (fst (run w es)) (PublishDone err))) in *.
  destruct (inFlight w2) as [|n] eqn:G.
  - now rewrite (step_done_none _ _ G).
  - rewrite (step_done _ _ _ G), E. reflexivity.
Qed.

Lemma completion_drains_live_queue_witness :
  let w := fst (run base [SetStateAndEmit [("on", JSON.Bool true)] (Fn 1);
                          Elapse 20]) in
  let es := [SetStateAndEmit [("brightness", JSON.Number 50 0)] (Fn 2)] in
  callbackQueue w = map Fn [1] /\
  inFlight w <> 0 /\
  no_completion es = true /\
  registered es = map Fn [2] /\
  snd (step (fst (run w es)) (PublishDone None)) = [Call 1 None; Call 2 None].
Proof.
  intros w es.
  assert (F : inFlight w <> 0) by discriminate.
  pose proof (completion_drains_live_queue w [1] es [2] None
                eq_refl F eq_refl eq_refl) as (_ & H & _).
  exact (conj eq_refl (conj F (conj eq_refl (conj eq_refl H)))).
Defined.

(** C1, as stated, fails: a callback registered while the first publish is
    in flight is called by the completion of that publish, whose message
    does not carry its partial; the following flush, which does, finds the
    queue empty and its error reaches no one. *)
Lemma in_flight_callback_joins_current_flush :
  let first := [SetStateAndEmit [("on", JSON.Bool true)] (Fn 1); Elapse 20] in
  let w := fst (run base first) in
  let racing := SetStateAndEmit [("brightness", JSON.Number 50 0)] (Fn 2) in
  publishes (snd (run base first))
  = [("bar/foo", JSON.stringify (JSON.Object [("on", JSON.Bool true)]), 2)] /\
  inFlight w = 1 /\
  snd (step (fst (step w racing)) (PublishDone None)) = [Call 1 None; Call 2 None] /\
  calls (snd (run w [racing; PublishDone None; Elapse 20;
                     PublishDone (Some (Error "lost"))]))
  = [(1, None); (2, None)].
Proof. repeat split. Qed.

(** C2, as the code has it.  Provided that every value registered
    through [setStateAndEmit] is a function: when a publish completes,
    every callback registered since the queue was last empty is called
    exactly once, in the order of registration, and all get the same
    argument, none when the publish reported no error, else its error. *)
Theorem flush_resolves_batch_in_order :
  forall (w : instance) (es : list event) (fs : list nat) (err : option error),
    callbackQueue w = [] ->
    no_completion es = true ->
    registered es = map Fn fs ->
    inFlight (fst (run w es)) <> 0 ->
    calls (snd (run w es)) = [] /\
    snd (step (fst (run w es)) (PublishDone err)) = map (fun f => Call f err) fs /\
    callbackQueue (fst (step (fst (run w es)) (PublishDone err))) = [].
Proof.
  intros w es fs err Q Hq Hreg Hfl.
  apply completion_after_quiet; try assumption.
  rewrite Q. exact Hreg.
Qed.

Lemma flush_resolves_batch_in_order_witness :
  let es := [SetStateAndEmit [("foo", JSON.Bool true)] (Fn 1);
             SetStateAndEmit [] (Fn 2); Elapse 20] in
  let err := Some (Error "Failed to send message!") in
  callbackQueue base = [] /\
  no_completion es = true /\
  registered es = map Fn [1; 2] /\
  inFlight (fst (run base es)) <> 0 /\
  snd (step (fst (run base es)) (PublishDone err)) = [Call 1 err; Call 2 err].
Proof.
  intros es err.
  assert (F : inFlight (fst (run base es)) <> 0) by discriminate.
  pose proof (flush_resolves_batch_in_order base es [1; 2] err
                eq_refl eq_refl eq_refl F) as (_ & H & _).
  exact (conj eq_refl (conj eq_refl (conj eq_refl (conj F H)))).
Defined.

(** C2, as stated, fails: three calls in one quiet period, the second
    without a callback.  The completion of the flush, a failure, calls the
    first callback only; the third stays queued and is called by the
    completion of a later flush, a success: one batch, two outcomes. *)
Lemma falsy_entry_splits_batch :
  let batch := [SetStateAndEmit [("on", JSON.Bool true)] (Fn 1);
                SetStateAndEmit [("hue", JSON.Number 7 0)] Falsy;
                SetStateAndEmit [("on", JSON.Bool false)] (Fn 2); Elapse 20] in
  let failed := Some (Error "Failed to send message!") in
  let w := fst (run base batch) in
  let later := fst (run (fst (step w (PublishDone failed)))
                        [SetStateAndEmit [] (Fn 3); Elapse 20]) in
  registered batch = [Fn 1; Falsy; Fn 2] /\
  List.length (publishes (snd (run base batch))) = 1 /\
  snd (step w (PublishDone failed)) = [Call 1 failed] /\
  callbackQueue (fst (step w (PublishDone failed))) = [Fn 2] /\
  snd (step later (PublishDone None)) = [Call 2 None; Call 3 None].
Proof. repeat split. Qed.

(** C3. After a burst of [setStateAndEmit] calls inside one quiet period
    the one message published is the JSON text of the whole state, which is
    the prior state with the partials assigned left to right: a key some
    partial has holds the value of the last partial that has it, any other
    key holds what it held before. *)
Theorem published_snapshot_is_merge :
  forall (w : instance) (b : list (JSON.object * callback * nat)) (d : nat),
    b <> [] ->
    within_quiet_period b ->
    wait <= d ->
    Forall is_object (partials b) ->
    publishes (snd (run w (burst b ++ [Elapse d])))
    = [(inboundTopic w,
        JSON.stringify (JSON.Object (merged (state w) (partials b))), 2)] /\
    state (fst (run w (burst b ++ [Elapse d]))) = merged (state w) (partials b) /\
    forall k : string,
      JSON.get k (merged (state w) (partials b))
      = match last_set k (partials b) with
        | Some v => Some v
        | None => JSON.get k (state w)
        end.
Proof.
  intros w b d Hne Hgaps Hd Hwf.
  rewrite (run_burst_flush b w d Hne Hgaps Hd). cbn [fst snd].
  rewrite publishes_app, publishes_burst_logs.
  repeat split. intros k. apply get_merged, Hwf.
Qed.

Lemma published_snapshot_is_merge_witness :
  let b := [([("on", JSON.Bool true); ("hue", JSON.Number 1 1)], Fn 1, 5);
            ([("on", JSON.Bool false)], Fn 2, 0)] in
  let w := with_state [("name", JSON.Str "lamp")] base in
  (b <> [] /\ within_quiet_period b /\ wait <= 20 /\ Forall is_object (partials b)) /\
  publishes (snd (run w (burst b ++ [Elapse 20])))
  = [("bar/foo",
      JSON.stringify (JSON.Object [("name", JSON.Str "lamp");
                                   ("on", JSON.Bool false);
                                   ("hue", JSON.Number 1 1)]), 2)].
Proof.
  intros b w.
  assert (Hne : b <> []) by discriminate.
  assert (Hgaps : within_quiet_period b).
  { repeat constructor. }
  assert (Hd : wait <= 20) by (unfold wait; lia).
  assert (Hwf : Forall is_object (partials b)).
  { repeat constructor; cbn; intuition discriminate. }
  pose proof (published_snapshot_is_merge w b 20 Hne Hgaps Hd Hwf) as (H & _).
  exact (conj (conj Hne (conj Hgaps (conj Hd Hwf))) H).
Defined.




(** C5, as the code has it.  A payload that is not JSON, on the subscribed
    topic, is logged as received, and then the [SyntaxError] of
    [JSON.parse] leaves [onMessage] uncaught; the hook is not called and no
    field of the instance changes. *)
Theorem malformed_payload_throws :
  forall (w : instance) (buffer : string),
    JSON.parse buffer = None ->
    onMessage (outboundTopic w) buffer w
    = (Throw SyntaxError, w,
       [Log ("Received " ++ buffer ++ " from " ++ outboundTopic w)%string]) /\
    step w (Message (outboundTopic w) buffer)
    = (w, [Log ("Received " ++ buffer ++ " from " ++ outboundTopic w)%string;
           Uncaught SyntaxError]).
Proof.
  intros w buffer Hbad.
  unfold step, handle, onMessage, bind, this, emit, throw.
  rewrite String.eqb_refl, Hbad. cbn. split; reflexivity.
Qed.

Lemma malformed_payload_throws_witness :
  JSON.parse "{" = None /\
  step base (Message "foo/bar" "{")
  = (base, [Log "Received { from foo/bar"; Uncaught SyntaxError]).
Proof.
  exact (conj eq_refl (proj2 (malformed_payload_throws base "{" eq_refl))).
Defined.

(** C5, as stated, fails: on the subscribed topic the payload [{] makes
    [onMessage] throw instead of return. *)
Lemma malformed_payload_escapes_handler :
  outcome (onMessage "foo/bar" "{") base = Throw SyntaxError /\
  hook_calls (output (onMessage "foo/bar" "{") base) = [].
Proof. split; reflexivity. Qed.




(** C7, as the code has it.  The hook is called exactly when the topic is
    the subscribed one and the payload is JSON, and then once, with the
    parsed value, after the log line; a message on another topic brings
    about nothing at all. *)
Theorem hook_iff_subscribed_topic_and_json :
  forall (w : instance) (topic buffer : string),
    (forall st : JSON.value,
        In (RemoteStateChange st) (snd (step w (Message topic buffer)))
        <-> topic = outboundTopic w /\ JSON.parse buffer = Some st) /\
    (forall st : JSON.value,
        topic = outboundTopic w -> JSON.parse buffer = Some st ->
        snd (step w (Message topic buffer))
        = [Log ("Received " ++ buffer ++ " from " ++ outboundTopic w)%string;
           RemoteStateChange st]) /\
    (topic <> outboundTopic w -> snd (step w (Message topic buffer)) = []).
Proof.
  intros w topic buffer.
  unfold step, handle, onMessage, bind, this, emit, throw.
  destruct (String.eqb_spec topic (outboundTopic w)) as [->|Hne]; cbn.
  - destruct (JSON.parse buffer) as [v|]; cbn.
    + split; [|split].
      * intros st; split.
        -- intros [E|[E|[]]]; try discriminate. injection E as ->. auto.
        -- intros [_ E]. injection E as ->. right; left; reflexivity.
      * intros st _ E. injection E as ->. reflexivity.
      * congruence.
    + split; [|split].
      * intros st; split.
        -- intros [E|[E|[]]]; discriminate.
        -- intros [_ E]; discriminate.
      * intros st _ E; discriminate.
      * congruence.
  - split; [|split].
    + intros st; split; [intros [] | intros [E _]; congruence].
    + intros st E; congruence.
    + reflexivity.
Qed.

(** C7, as stated, fails: a message on the subscribed topic whose payload
    is not JSON does not reach the hook. *)
Lemma subscribed_topic_without_hook_call :
  String.eqb "foo/bar" (outboundTopic base) = true /\
  hook_calls (snd (step base (Message "foo/bar" "{"))) = [] /\
  snd (step base (Message "foo/bar" "{"))
  = [Log "Received { from foo/bar"; Uncaught SyntaxError].
Proof. repeat split. Qed.




(** C9. [setStateAndEmit] leaves the value of a key alone that its partial
    does not have. *)
Theorem setStateAndEmit_frame :
  forall (w : instance) (partial : JSON.object) (c : callback) (k : string),
    JSON.has k partial = false ->
    JSON.get k (state (exec (setStateAndEmit partial c) w)) = JSON.get k (state w).
Proof.
  intros w partial c k Hk. unfold exec.
  rewrite setStateAndEmit_eq. cbn [fst snd state].
  rewrite get_assign, get_rev_none; [reflexivity|].
  unfold JSON.has in Hk. destruct (JSON.get k partial); [discriminate | reflexivity].
Qed.

Lemma setStateAndEmit_frame_witness :
  let w := with_state [("on", JSON.Bool true); ("hue", JSON.Number 12 0)] base in
  JSON.has "on" [("hue", JSON.Number 3 1)] = false /\
  JSON.get "on" (state (exec (setStateAndEmit [("hue", JSON.Number 3 1)] (Fn 1)) w))
  = Some (JSON.Bool true).
Proof.
  intros w.
  exact (conj eq_refl
           (setStateAndEmit_frame w [("hue", JSON.Number 3 1)] (Fn 1) "on" eq_refl)).
Defined.

(** C10. A falsy value in the queue ends the drain: the functions ahead of
    it are called, the falsy entry is shifted out without a call, and what
    is queued behind it is not called by this completion but stays queued;
    the next completion calls it, with the error of that later publish. *)
Theorem falsy_callback_stops_drain :
  forall (w : instance) (fs : list nat) (post : list callback)
         (err : option error),
    callbackQueue w = map Fn fs ++ Falsy :: post ->
    inFlight w <> 0 ->
    snd (step w (PublishDone err)) = map (fun f => Call f err) fs /\
    callbackQueue (fst (step w (PublishDone err))) = post /\
    forall (es : list event) (hs : list nat) (err' : option error),
      no_completion es = true ->
      post ++ registered es = map Fn hs ->
      inFlight (fst (run (fst (step w (PublishDone err))) es)) <> 0 ->
      snd (step (fst (run (fst (step w (PublishDone err))) es)) (PublishDone err'))
      = map (fun f => Call f err') hs.
Proof.
  intros w fs post err Q F.
  destruct (inFlight w) as [|n] eqn:E; [congruence|].
  rewrite (step_done _ _ _ E), Q, drain_falsy. cbn [fst snd].
  repeat split; try reflexivity.
  intros es hs err' Hq Hreg Hfl.
  apply completion_after_quiet; assumption.
Qed.

Lemma falsy_callback_stops_drain_witness :
  let w := fst (run base [SetStateAndEmit [] (Fn 1); SetStateAndEmit [] Falsy;
                          SetStateAndEmit [] (Fn 2); Elapse 20]) in
  let err := Some (Error "first") in
  callbackQueue w = map Fn [1] ++ Falsy :: [Fn 2] /\
  inFlight w <> 0 /\
  snd (step w (PublishDone err)) = [Call 1 err] /\
  callbackQueue (fst (step w (PublishDone err))) = [Fn 2] /\
  snd (step (fst (run (fst (step w (PublishDone err)))
                      [SetStateAndEmit [] (Fn 3); Elapse 20]))
            (PublishDone None))
  = [Call 2 None; Call 3 None].
Proof.
  intros w err.
  assert (Q : callbackQueue w = map Fn [1] ++ Falsy :: [Fn 2]) by reflexivity.
  assert (F : inFlight w <> 0) by discriminate.
  destruct (falsy_callback_stops_drain w [1] [Fn 2] err Q F) as (H1 & H2 & H3).
  assert (F' : inFlight (fst (run (fst (step w (PublishDone err)))
                                  [SetStateAndEmit [] (Fn 3); Elapse 20])) <> 0)
    by discriminate.
  exact (conj Q (conj F (conj H1 (conj H2
          (H3 [SetStateAndEmit [] (Fn 3); Elapse 20] [2; 3] None
              eq_refl eq_refl F'))))).
Defined.

(** ** Further properties of the queue *)

Lemma called_app (a b : list effect) : called (a ++ b) = called a ++ called b.
Proof. unfold called. now rewrite calls_app, map_app. Qed.

Lemma ids_app (q1 q2 : list callback) : ids (q1 ++ q2) = ids q1 ++ ids q2.
Proof. apply flat_map_app. Qed.

Lemma ids_map_fn (fs : list nat) : ids (map Fn fs) = fs.
Proof. induction fs as [|f fs IH]; cbn; [reflexivity | f_equal; exact IH]. Qed.

Lemma registered_cons (e : event) (es : list event) :
  registered (e :: es) = registered [e] ++ registered es.
Proof. unfold registered. cbn [flat_map]. now rewrite app_nil_r. Qed.

(** One pass of the drain loop: the functions it calls and the functions
    it leaves are the functions it found. *)
Lemma drain_ids (err : option error) (q : list callback) :
  called (fst (drain err q)) ++ ids (snd (drain err q)) = ids q.
Proof.
  induction q as [|[f|] q IH]; cbn; try reflexivity.
  destruct (drain err q) as [cs kept]. cbn in *. now rewrite IH.
Qed.

Lemma drain_all_fn (err : option error) (q : list callback) :
  forallb is_fn q = true ->
  drain err q = (map (fun f => Call f err) (ids q), []).
Proof.
  induction q as [|[f|] q IH]; cbn; intros H; try reflexivity; try discriminate.
  now rewrite (IH H).
Qed.

Lemma step_conserves (w : instance) (e : event) :
  called (snd (step w e)) ++ ids (callbackQueue (fst (step w e)))
  = ids (callbackQueue w) ++ ids (registered [e]).
Proof.
  destruct e as [p c|ms|err|topic buffer].
  - rewrite step_set. cbn [fst snd callbackQueue]. cbn [registered flat_map].
    now rewrite app_nil_r, ids_app.
  - cbn [registered flat_map ids]. rewrite app_nil_r.
    destruct (timer w) as [due|] eqn:T.
    + destruct (Nat.le_gt_cases due ms) as [Hle|Hgt].
      * now rewrite (step_elapse_due _ _ _ T Hle).
      * now rewrite (step_elapse_early _ _ _ T Hgt).
    + now rewrite (step_elapse_idle _ _ T).
  - cbn [registered flat_map ids]. rewrite app_nil_r.
    destruct (inFlight w) as [|n] eqn:F.
    + now rewrite (step_done_none _ _ F).
    + rewrite (step_done _ _ _ F). cbn [fst snd with_callbackQueue callbackQueue].
      apply drain_ids.
  - cbn [registered flat_map ids]. rewrite app_nil_r.
    destruct (step_message w topic buffer) as (E & C & _).
    unfold called. now rewrite E, C.
Qed.

(** X1. In every run, whatever its events and their timing, the host
    functions called so far followed by the host functions still queued
    are the functions that were queued at the start followed by those
    registered since: no function is lost, none is called twice, and calls
    follow the order of registration. *)
Theorem callbacks_conserved :
  forall (w : instance) (es : list event),
    called (snd (run w es)) ++ ids (callbackQueue (fst (run w es)))
    = ids (callbackQueue w) ++ ids (registered es).
Proof.
  intros w es. revert w. induction es as [|e es IH]; intros w.
  - cbn. now rewrite app_nil_r.
  - rewrite run_cons, registered_cons, ids_app. cbn [fst snd].
    rewrite called_app, <- app_assoc, IH, !app_assoc.
    now rewrite step_conserves.
Qed.

Lemma forallb_is_fn_app (q1 q2 : list callback) :
  forallb is_fn (q1 ++ q2) = forallb is_fn q1 && forallb is_fn q2.
Proof. apply forallb_app. Qed.

Lemma flush_pending_timer (w : instance) (due : nat) :
  timer w = Some due -> flush_pending w = true.
Proof.
  unfold flush_pending. intros ->. now destruct (callbackQueue w).
Qed.

Lemma flush_pending_empty (w : instance) :
  callbackQueue w = [] -> flush_pending w = true.
Proof. unfold flush_pending. now intros ->. Qed.

Lemma flush_pending_in_flight (w : instance) (n : nat) :
  inFlight w = S n -> flush_pending w = true.
Proof.
  unfold flush_pending. intros ->.
  destruct (callbackQueue w); [reflexivity|]. now destruct (timer w).
Qed.

Lemma step_armed (w : instance) (e : event) :
  armed w -> forallb is_fn (registered [e]) = true -> armed (fst (step w e)).
Proof.
  unfold armed. intros (Hq & Hp & Ht) Hr.
  destruct e as [p c|ms|err|topic buffer].
  - rewrite step_set. cbn [fst]. split; [|split].
    + cbn [callbackQueue]. rewrite forallb_is_fn_app, Hq.
      cbn [registered flat_map app] in Hr. exact Hr.
    + now apply (flush_pending_timer _ wait).
    + unfold timer_in_range. cbn [timer]. apply Nat.leb_refl.
  - destruct (timer w) as [due|] eqn:T.
    + destruct (Nat.le_gt_cases due ms) as [Hle|Hgt].
      * rewrite (step_elapse_due _ _ _ T Hle). cbn [fst]. split; [|split].
        -- exact Hq.
        -- now apply (flush_pending_in_flight _ (inFlight w)).
        -- reflexivity.
      * rewrite (step_elapse_early _ _ _ T Hgt). cbn [fst]. split; [|split].
        -- exact Hq.
        -- now apply (flush_pending_timer _ (due - ms)).
        -- unfold timer_in_range in *. rewrite T in Ht. cbn [with_timer timer].
           apply Nat.leb_le in Ht. apply Nat.leb_le. lia.
    + rewrite (step_elapse_idle _ _ T). cbn [fst]. auto.
  - destruct (inFlight w) as [|n] eqn:F.
    + rewrite (step_done_none _ _ F). cbn [fst]. auto.
    + rewrite (step_done _ _ _ F), (drain_all_fn _ _ Hq). cbn [fst snd].
      split; [|split].
      * reflexivity.
      * now apply flush_pending_empty.
      * exact Ht.
  - destruct (step_message w topic buffer) as (E & _). rewrite E. auto.
Qed.

(** X2. As long as every callback handed to [setStateAndEmit] is a
    function, no callback is ever left behind: after any run from an
    instance of which this holds (a new one, say), the queue holds only
    functions, and if it holds any, the debounce timer is running, with at
    most 20 ms to go, or a publish is in flight. *)
Theorem queued_callbacks_have_a_flush_pending :
  forall (w : instance) (es : list event),
    armed w ->
    forallb is_fn (registered es) = true ->
    armed (fst (run w es)).
Proof.
  intros w es. revert w. induction es as [|e es IH]; intros w Hw Hr; [exact Hw|].
  rewrite run_cons. cbn [fst]. rewrite registered_cons, forallb_is_fn_app in Hr.
  apply andb_prop in Hr as [He Hes].
  apply IH; [apply step_armed; assumption | exact Hes].
Qed.

Lemma queued_callbacks_have_a_flush_pending_witness :
  let es := [SetStateAndEmit [("on", JSON.Bool true)] (Fn 1); Elapse 20;
             SetStateAndEmit [] (Fn 2); Message "foo/bar" "{";
             PublishDone None; SetStateAndEmit [] (Fn 3); Elapse 7] in
  (armed base /\ forallb is_fn (registered es) = true) /\
  callbackQueue (fst (run base es)) = [Fn 3] /\
  timer (fst (run base es)) = Some 13 /\
  armed (fst (run base es)).
Proof.
  intros es.
  assert (A : armed base) by (repeat split).
  exact (conj (conj A eq_refl)
          (conj eq_refl (conj eq_refl
             (queued_callbacks_have_a_flush_pending base es A eq_refl)))).
Defined.

(** X3. From such an instance, 20 ms without a call and one completed
    publish settle everything: every queued function is called, in order,
    with the outcome of that publish, and the queue is empty. *)
Theorem quiet_period_and_completion_settle_the_queue :
  forall (w : instance) (d : nat) (err : option error),
    armed w ->
    wait <= d ->
    calls (snd (run w [Elapse d; PublishDone err]))
    = map (fun f => (f, err)) (ids (callbackQueue w)) /\
    callbackQueue (fst (run w [Elapse d; PublishDone err])) = [].
Proof.
  intros w d err (Hq & Hp & Ht) Hd.
  rewrite run_cons. cbn [fst snd].
  destruct (timer w) as [due|] eqn:T.
  - assert (Hdue : due <= d).
    { unfold timer_in_range in Ht. rewrite T in Ht. apply Nat.leb_le in Ht. lia. }
    rewrite (step_elapse_due _ _ _ T Hdue). cbn [fst snd].
    rewrite run_cons, (step_done err (inFlight w)) by reflexivity.
    cbn [fst snd run with_inFlight with_timer with_callbackQueue callbackQueue].
    rewrite (drain_all_fn _ _ Hq). cbn [fst snd].
    rewrite app_nil_r, calls_app, calls_flushed, calls_map_call. auto.
  - rewrite (step_elapse_idle _ _ T). cbn [fst snd app].
    rewrite run_cons. cbn [run fst snd]. rewrite app_nil_r.
    destruct (inFlight w) as [|n] eqn:F.
    + rewrite (step_done_none _ _ F). cbn [fst snd].
      unfold flush_pending in Hp. rewrite T, F in Hp.
      destruct (callbackQueue w); [auto | discriminate].
    + rewrite (step_done _ _ _ F), (drain_all_fn _ _ Hq). cbn [fst snd].
      now rewrite calls_map_call.
Qed.

Lemma quiet_period_and_completion_settle_the_queue_witness :
  let w := fst (run base [SetStateAndEmit [] (Fn 1); Elapse 20;
                          SetStateAndEmit [] (Fn 2); Elapse 3]) in
  let failed := Some (Error "Failed to send message!") in
  (armed w /\ wait <= 25) /\
  calls (snd (run w [Elapse 25; PublishDone failed])) = [(1, failed); (2, failed)].
Proof.
  intros w failed.
  assert (A : armed w) by (repeat split).
  assert (Hd : wait <= 25) by (unfold wait; lia).
  exact (conj (conj A Hd)
          (proj1 (quiet_period_and_completion_settle_the_queue w 25 failed A Hd))).
Defined.

(** An instance with no timer and no publish in flight does nothing until
    the next call of [setStateAndEmit]. *)
Lemma idle_inert (es : list event) (w : instance) :
  timer w = None -> inFlight w = 0 -> registered es = [] ->
  fst (run w es) = w /\ calls (snd (run w es)) = [] /\
  publishes (snd (run w es)) = [].
Proof.
  intros T F. induction es as [|e es IH]; intros Hr; [cbn; auto|].
  rewrite registered_cons in Hr. apply app_eq_nil in Hr as [He Hes].
  assert (Hstep : fst (step w e) = w /\ calls (snd (step w e)) = [] /\
                  publishes (snd (step w e)) = []).
  { destruct e as [p c|ms|err|topic buffer].
    - discriminate.
    - rewrite (step_elapse_idle _ _ T). auto.
    - rewrite (step_done_none _ _ F). auto.
    - apply step_message. }
  destruct Hstep as (E & C & P). destruct (IH Hes) as (E' & C' & P').
  rewrite run_cons, E. cbn [fst snd].
  now rewrite calls_app, publishes_app, C, P, E', C', P'.
Qed.

(** X4. A callback queued behind a falsy entry is left behind by the
    completion that stops at that entry: with nothing else in flight and
    no timer running, it is not called by anything that follows (time,
    messages, completions) until [setStateAndEmit] is called again. *)
Theorem callbacks_behind_falsy_wait_for_next_call :
  forall (w : instance) (fs : list nat) (post : list callback)
         (err : option error) (es : list event),
    callbackQueue w = map Fn fs ++ Falsy :: post ->
    timer w = None ->
    inFlight w = 1 ->
    registered es = [] ->
    calls (snd (run w (PublishDone err :: es))) = map (fun f => (f, err)) fs /\
    callbackQueue (fst (run w (PublishDone err :: es))) = post.
Proof.
  intros w fs post err es Q T F Hr.
  rewrite run_cons, (step_done _ _ _ F), Q, drain_falsy. cbn [fst snd].
  destruct (idle_inert es (with_callbackQueue post (with_inFlight 0 w)))
    as (E & C & _); [exact T | reflexivity | exact Hr |].
  now rewrite E, calls_app, C, app_nil_r, calls_map_call.
Qed.

Lemma callbacks_behind_falsy_wait_for_next_call_witness :
  let w := fst (run base [SetStateAndEmit [] Falsy; SetStateAndEmit [] (Fn 2);
                          Elapse 20]) in
  let es := [Elapse 1000; PublishDone None; Message "foo/bar" "[]"] in
  (callbackQueue w = map Fn [] ++ Falsy :: [Fn 2] /\ timer w = None /\
   inFlight w = 1 /\ registered es = []) /\
  calls (snd (run w (PublishDone None :: es))) = [] /\
  callbackQueue (fst (run w (PublishDone None :: es))) = [Fn 2].
Proof.
  intros w es.
  exact (conj (conj eq_refl (conj eq_refl (conj eq_refl eq_refl)))
          (callbacks_behind_falsy_wait_for_next_call w [] [Fn 2] None es
             eq_refl eq_refl eq_refl eq_refl)).
Defined.

(** ** Further properties of the debounce and of publishing *)

(** X5. The debounce never fires early: after a burst of calls, as long as
    less than 20 ms have passed since the last call, nothing has been
    published; the partials are merged and the timer is still running with
    what is left of the quiet period. *)
Theorem no_publish_before_quiet_period :
  forall (w : instance) (b : list (JSON.object * callback * nat)) (d : nat),
    b <> [] ->
    within_quiet_period b ->
    last (gaps b) 0 + d < wait ->
    publishes (snd (run w (burst b ++ [Elapse d]))) = [] /\
    timer (fst (run w (burst b ++ [Elapse d])))
    = Some (wait - last (gaps b) 0 - d) /\
    state (fst (run w (burst b ++ [Elapse d]))) = merged (state w) (partials b) /\
    inFlight (fst (run w (burst b ++ [Elapse d]))) = inFlight w.
Proof.
  intros w b d Hne Hgaps Hd.
  rewrite run_app, (run_burst b w Hne Hgaps). cbn [fst snd].
  rewrite run_cons, (step_elapse_early d (wait - last (gaps b) 0));
    [| reflexivity | lia].
  cbn [fst snd run]. rewrite !app_nil_r, publishes_burst_logs. auto.
Qed.

Lemma no_publish_before_quiet_period_witness :
  let b := [([("on", JSON.Bool true)], Fn 1, 12);
            ([("hue", JSON.Number 7 0)], Fn 2, 19)] in
  (b <> [] /\ within_quiet_period b /\ last (gaps b) 0 + 0 < wait) /\
  publishes (snd (run base (burst b ++ [Elapse 0]))) = [] /\
  timer (fst (run base (burst b ++ [Elapse 0]))) = Some 1.
Proof.
  intros b.
  assert (Hne : b <> []) by discriminate.
  assert (Hgaps : within_quiet_period b) by (repeat constructor).
  assert (Hd : last (gaps b) 0 + 0 < wait) by (cbn; unfold wait; lia).
  pose proof (no_publish_before_quiet_period base b 0 Hne Hgaps Hd)
    as (H1 & H2 & _).
  exact (conj (conj Hne (conj Hgaps Hd)) (conj H1 H2)).
Defined.

Lemma step_publish_count (w : instance) (e : event) :
  List.length (publishes (snd (step w e))) + timer_credit (fst (step w e))
  <= List.length (registered [e]) + timer_credit w.
Proof.
  unfold timer_credit.
  destruct e as [p c|ms|err|topic buffer].
  - rewrite step_set. cbn. destruct (timer w); lia.
  - destruct (timer w) as [due|] eqn:T.
    + destruct (Nat.le_gt_cases due ms) as [Hle|Hgt].
      * rewrite (step_elapse_due _ _ _ T Hle). cbn. lia.
      * rewrite (step_elapse_early _ _ _ T Hgt). cbn. lia.
    + rewrite (step_elapse_idle _ _ T). cbn. rewrite T. lia.
  - destruct (inFlight w) as [|n] eqn:F.
    + rewrite (step_done_none _ _ F). cbn. lia.
    + rewrite (step_done _ _ _ F). cbn [fst snd with_callbackQueue with_inFlight timer].
      assert (P : publishes (fst (drain err (callbackQueue w))) = []).
      { induction (callbackQueue w) as [|[f|] q IH]; cbn; try reflexivity.
        destruct (drain err q); cbn in *. exact IH. }
      rewrite P. cbn. lia.
  - destruct (step_message w topic buffer) as (E & _ & P). rewrite E, P. cbn. lia.
Qed.

Lemma run_publish_count (es : list event) (w : instance) :
  List.length (publishes (snd (run w es))) + timer_credit (fst (run w es))
  <= List.length (registered es) + timer_credit w.
Proof.
  revert w. induction es as [|e es IH]; intros w; [cbn; lia|].
  rewrite run_cons, registered_cons. cbn [fst snd].
  rewrite publishes_app, !length_app.
  pose proof (step_publish_count w e). pose proof (IH (fst (step w e))). lia.
Qed.

(** X6. The debounce never multiplies: a run publishes at most once per
    call of [setStateAndEmit], plus once if a timer was already running
    when the run began.  Without a call and without a running timer
    nothing is published, whatever completes or arrives. *)
Theorem publishes_bounded_by_calls :
  forall (w : instance) (es : list event),
    List.length (publishes (snd (run w es)))
    <= List.length (registered es) + timer_credit w.
Proof.
  intros w es. pose proof (run_publish_count es w). lia.
Qed.

Lemma run_topics (es : list event) (w : instance) :
  inboundTopic (fst (run w es)) = inboundTopic w /\
  outboundTopic (fst (run w es)) = outboundTopic w.
Proof.
  revert w. induction es as [|e es IH]; intros w; [cbn; auto|].
  rewrite run_cons. cbn [fst].
  destruct (IH (fst (step w e))) as (-> & ->). apply step_topics.
Qed.

Lemma step_well_addressed (w : instance) (e : event) :
  Forall (well_addressed w) (publishes (snd (step w e))).
Proof.
  destruct e as [p c|ms|err|topic buffer].
  - rewrite step_set. constructor.
  - destruct (timer w) as [due|] eqn:T.
    + destruct (Nat.le_gt_cases due ms) as [Hle|Hgt].
      * rewrite (step_elapse_due _ _ _ T Hle). cbn.
        constructor; [|constructor].
        repeat split. now exists (state w).
      * rewrite (step_elapse_early _ _ _ T Hgt). constructor.
    + rewrite (step_elapse_idle _ _ T). constructor.
  - destruct (inFlight w) as [|n] eqn:F.
    + rewrite (step_done_none _ _ F). constructor.
    + rewrite (step_done _ _ _ F). cbn [snd].
      induction (callbackQueue w) as [|[f|] q IH]; cbn; try constructor.
      destruct (drain err q); cbn in *. exact IH.
  - destruct (step_message w topic buffer) as (_ & _ & P). rewrite P. constructor.
Qed.

Lemma run_well_addressed (es : list event) (w : instance) :
  Forall (well_addressed w) (publishes (snd (run w es))).
Proof.
  revert w. induction es as [|e es IH]; intros w; [constructor|].
  rewrite run_cons. cbn [snd]. rewrite publishes_app.
  apply Forall_app. split; [apply step_well_addressed|].
  destruct (step_topics w e) as (Hin & _).
  eapply Forall_impl; [|apply IH].
  intros x (H1 & H2 & H3). unfold well_addressed. rewrite <- Hin. auto.
Qed.

(** X7. Every publish of every run goes to the inbound topic of the
    instance, with QoS 2, and carries the JSON text of an object: nothing
    is ever published to another topic or at another level. *)
Theorem every_publish_goes_to_inbound_topic :
  forall (w : instance) (es : list event),
    Forall (well_addressed w) (publishes (snd (run w es))).
Proof. intros w es. apply run_well_addressed. Qed.

Lemma step_message_other (w : instance) (topic buffer : string) :
  topic <> outboundTopic w -> step w (Message topic buffer) = (w, []).
Proof.
  intros Hne. unfold step, handle, onMessage, bind, this.
  destruct (String.eqb_spec topic (outboundTopic w)); [congruence | reflexivity].
Qed.

(** X8. With different inbound and outbound topics the instance does not
    hear itself: handed back to [onMessage], any message the run published
    is dropped without a log line, a hook call or a change. *)
Theorem own_publishes_are_ignored :
  forall (w : instance) (es : list event),
    inboundTopic w <> outboundTopic w ->
    Forall (fun x => step (fst (run w es)) (Message (fst (fst x)) (snd (fst x)))
                     = (fst (run w es), []))
           (publishes (snd (run w es))).
Proof.
  intros w es Hne.
  eapply Forall_impl; [|apply run_well_addressed].
  intros x (Ht & _). apply step_message_other.
  destruct (run_topics es w) as (_ & ->). congruence.
Qed.

Lemma own_publishes_are_ignored_witness :
  let es := [SetStateAndEmit [("on", JSON.Bool true)] (Fn 1); Elapse 20] in
  inboundTopic base <> outboundTopic base /\
  step (fst (run base es))
       (Message "bar/foo" (JSON.stringify (JSON.Object [("on", JSON.Bool true)])))
  = (fst (run base es), []).
Proof.
  intros es.
  assert (Hne : inboundTopic base <> outboundTopic base) by discriminate.
  exact (conj Hne (Forall_inv (own_publishes_are_ignored base es Hne))).
Defined.

(** ** Further properties of the state *)

Lemma set_partials_cons (e : event) (es : list event) :
  set_partials (e :: es) = set_partials [e] ++ set_partials es.
Proof. unfold set_partials. cbn [flat_map]. now rewrite app_nil_r. Qed.

Lemma merged_app (st : JSON.object) (ps qs : list JSON.object) :
  merged st (ps ++ qs) = merged (merged st ps) qs.
Proof. apply fold_left_app. Qed.

Lemma step_state (w : instance) (e : event) :
  state (fst (step w e)) = merged (state w) (set_partials [e]).
Proof.
  destruct e as [p c|ms|err|topic buffer].
  - now rewrite step_set.
  - destruct (timer w) as [due|] eqn:T.
    + destruct (Nat.le_gt_cases due ms) as [Hle|Hgt].
      * now rewrite (step_elapse_due _ _ _ T Hle).
      * now rewrite (step_elapse_early _ _ _ T Hgt).
    + now rewrite (step_elapse_idle _ _ T).
  - destruct (inFlight w) as [|n] eqn:F.
    + now rewrite (step_done_none _ _ F).
    + now rewrite (step_done _ _ _ F).
  - destruct (step_message w topic buffer) as (E & _). now rewrite E.
Qed.

Lemma run_state (es : list event) (w : instance) :
  state (fst (run w es)) = merged (state w) (set_partials es).
Proof.
  revert w. induction es as [|e es IH]; intros w; [reflexivity|].
  rewrite run_cons, set_partials_cons, merged_app. cbn [fst].
  now rewrite IH, step_state.
Qed.

(** X9. Only [setStateAndEmit] writes [this.state]: after any run the
    state is the state at the start with the partials of the calls assigned
    in call order, whatever timers, completions, failed publishes and
    incoming messages (valid remote state included) lie in between. *)
Theorem state_is_merge_of_calls :
  forall (w : instance) (es : list event),
    state (fst (run w es)) = merged (state w) (set_partials es).
Proof. intros w es. apply run_state. Qed.

Lemma has_assign (k : string) (source target : JSON.object) :
  JSON.has k target = true -> JSON.has k (JSON.assign target source) = true.
Proof.
  unfold JSON.has. rewrite get_assign.
  destruct (JSON.get k (rev source)); [reflexivity | tauto].
Qed.

Lemma has_merged (k : string) (ps : list JSON.object) (st : JSON.object) :
  JSON.has k st = true -> JSON.has k (merged st ps) = true.
Proof.
  unfold merged. revert st. induction ps as [|p ps IH]; intros st H; [exact H|].
  cbn. apply IH, has_assign, H.
Qed.

(** X10. The state never loses a key: a key the state has stays in the
    state through every run (its value may change, by a later partial). *)
Theorem state_keeps_its_keys :
  forall (w : instance) (es : list event) (k : string),
    JSON.has k (state w) = true ->
    JSON.has k (state (fst (run w es))) = true.
Proof.
  intros w es k H. rewrite run_state. apply has_merged, H.
Qed.

Lemma state_keeps_its_keys_witness :
  let w := with_state [("on", JSON.Bool true)] base in
  let es := [SetStateAndEmit [("hue", JSON.Number 7 0)] (Fn 1); Elapse 20;
             SetStateAndEmit [("on", JSON.Null)] Falsy; PublishDone None;
             Message "foo/bar" "{}"] in
  JSON.has "on" (state w) = true /\
  JSON.has "on" (state (fst (run w es))) = true.
Proof.
  intros w es. exact (conj eq_refl (state_keeps_its_keys w es "on" eq_refl)).
Defined.

Lemma get_in (k : string) (v : JSON.value) (o : JSON.object) :
  is_object o -> In (k, v) o -> JSON.get k o = Some v.
Proof.
  unfold is_object. induction o as [|[k' v'] o IH]; cbn; intros Hnd I; [tauto|].
  inversion Hnd as [|? ? Hnotin Hnd']; subst.
  destruct I as [E|I].
  - injection E as -> ->. now rewrite String.eqb_refl.
  - destruct (String.eqb_spec k k') as [->|Hne]; [|now apply IH].
    exfalso. apply Hnotin. change k' with (fst (k', v)).
    apply in_map, I.
Qed.

Lemma update_prop_same (k : string) (v : JSON.value) (o : JSON.object) :
  JSON.get k o = Some v -> JSON.update_prop k v o = o.
Proof.
  induction o as [|[k' v'] o IH]; cbn; [reflexivity|].
  destruct (String.eqb_spec k k') as [->|Hne].
  - intros E. now injection E as ->.
  - intros E. now rewrite (IH E).
Qed.

Lemma set_same (k : string) (v : JSON.value) (o : JSON.object) :
  JSON.get k o = Some v -> JSON.set k v o = o.
Proof.
  intros E. unfold JSON.set, JSON.has. rewrite E. apply update_prop_same, E.
Qed.

Lemma assign_same (source target : JSON.object) :
  (forall k v, In (k, v) source -> JSON.get k target = Some v) ->
  JSON.assign target source = target.
Proof.
  unfold JSON.assign. induction source as [|[k v] source IH]; intros H;
    [reflexivity|].
  cbn. rewrite set_same by (apply H; now left).
  apply IH. intros k' v' I. apply H. now right.
Qed.

Lemma get_assign_in (k : string) (v : JSON.value) (source target : JSON.object) :
  is_object source -> In (k, v) source ->
  JSON.get k (JSON.assign target source) = Some v.
Proof.
  intros Hs I. now rewrite get_assign, (get_rev _ _ Hs), (get_in _ _ _ Hs I).
Qed.

(** X11. Setting the same partial again changes nothing in the state:
    not a value, not a key, not the order of the keys, so the text that
    the next flush publishes is the same. *)
Theorem repeated_partial_leaves_state :
  forall (w : instance) (partial : JSON.object) (c1 c2 : callback),
    is_object partial ->
    state (exec (setStateAndEmit partial c2) (exec (setStateAndEmit partial c1) w))
    = state (exec (setStateAndEmit partial c1) w).
Proof.
  intros w partial c1 c2 Hp. unfold exec. rewrite !setStateAndEmit_eq.
  cbn [fst snd state]. apply assign_same.
  intros k v I. now apply get_assign_in.
Qed.

Lemma repeated_partial_leaves_state_witness :
  let p := [("on", JSON.Bool true); ("7", JSON.Null)] in
  let w := with_state [("on", JSON.Bool false); ("name", JSON.Str "lamp")] base in
  is_object p /\
  state (exec (setStateAndEmit p Falsy) (exec (setStateAndEmit p (Fn 1)) w))
  = [("7", JSON.Null); ("on", JSON.Bool true); ("name", JSON.Str "lamp")].
Proof.
  intros p w.
  assert (Hp : is_object p) by (repeat constructor; cbn; intuition discriminate).
  exact (conj Hp (repeated_partial_leaves_state w p (Fn 1) Falsy Hp)).
Defined.

(** X12. Two calls in a row leave every key with the value that one call
    with [Object.assign(first, second)] as its partial would leave: the
    coalescing of calls loses nothing that a caller could read back. *)
Theorem two_calls_read_as_one :
  forall (w : instance) (p1 p2 : JSON.object) (c1 c2 c : callback) (k : string),
    is_object p1 ->
    JSON.get k (state (exec (setStateAndEmit p2 c2) (exec (setStateAndEmit p1 c1) w)))
    = JSON.get k (state (exec (setStateAndEmit (JSON.assign p1 p2) c) w)).
Proof.
  intros w p1 p2 c1 c2 c k Hp. unfold exec. rewrite !setStateAndEmit_eq.
  cbn [fst snd state]. rewrite !get_assign.
  rewrite (get_rev k (JSON.assign p1 p2)) by (apply is_object_assign, Hp).
  rewrite get_assign, (get_rev k p1 Hp).
  destruct (JSON.get k (rev p2)); [reflexivity|].
  destruct (JSON.get k p1); reflexivity.
Qed.

Lemma two_calls_read_as_one_witness :
  let p1 := [("on", JSON.Bool true); ("hue", JSON.Number 7 0)] in
  let p2 := [("hue", JSON.Number 9 0)] in
  is_object p1 /\
  JSON.get "hue" (state (exec (setStateAndEmit p2 (Fn 2))
                              (exec (setStateAndEmit p1 (Fn 1)) base)))
  = JSON.get "hue" (state (exec (setStateAndEmit (JSON.assign p1 p2) (Fn 3)) base)).
Proof.
  intros p1 p2.
  assert (Hp : is_object p1) by (repeat constructor; cbn; intuition discriminate).
  exact (conj Hp (two_calls_read_as_one base p1 p2 (Fn 1) (Fn 2) (Fn 3) "hue" Hp)).
Defined.

(** X13. Incoming messages never disturb the coalescer: with the
    deliveries taken out of a run, on any topic and with any payload, the
    one that makes [onMessage] throw included, the run ends in the same
    instance, makes the same calls and publishes the same messages. *)
Theorem messages_leave_the_coalescer_alone :
  forall (w : instance) (es : list event),
    fst (run w es) = fst (run w (without_messages es)) /\
    calls (snd (run w es)) = calls (snd (run w (without_messages es))) /\
    publishes (snd (run w es)) = publishes (snd (run w (without_messages es))).
Proof.
  intros w es. revert w. induction es as [|e es IH]; intros w; [cbn; auto|].
  rewrite run_cons. cbn [fst snd]. rewrite calls_app, publishes_app.
  destruct (is_message e) eqn:M.
  - destruct e as [p c|ms|err|topic buffer]; try discriminate.
    unfold without_messages. cbn [filter is_message negb].
    destruct (step_message w topic buffer) as (-> & -> & ->).
    apply IH.
  - assert (K : without_messages (e :: es) = e :: without_messages es).
    { unfold without_messages. cbn [filter]. now rewrite M. }
    rewrite K, run_cons. cbn [fst snd]. rewrite calls_app, publishes_app.
    destruct (IH (fst (step w e))) as (-> & -> & ->). auto.
Qed.

(** ** The constructor, the connection handlers, [log] and [identify] *)

(** test('constructor() does init mqtt with defaults') *)
Example test_constructor_defaults :
  connections (snd (constructor {| Options.port := None; Options.host := None;
                                   Options.client := false;
                                   Options.outboundTopic := "foo/bar";
                                   Options.inboundTopic := "bar/foo" |}))
  = ["mqtt://localhost:1883"%string].
Proof. reflexivity. Qed.

(** test('constructor() does init mqtt with overrides') *)
Example test_constructor_overrides :
  constructor {| Options.port := Some 1337%N;
                 Options.host := Some "www.austinkurpuis.com"%string;
                 Options.client := false;
                 Options.outboundTopic := "foo/outbound";
                 Options.inboundTopic := "foo/inbound" |}
  = (new "foo/outbound" "foo/inbound",
     [MqttConnect "mqtt://www.austinkurpuis.com:1337";
      Announce "Attempting to connect to MQTT broker at mqtt://www.austinkurpuis.com:1337...";
      ClientOn "connect" OnConnect; ClientOn "error" OnError;
      ClientOn "message" OnMessage;
      ClientSubscribe "foo/outbound" OnSubscribeComplete]).
Proof. reflexivity. Qed.

(** test('constructor()'): with a client of the caller's. *)
Example test_constructor_with_client :
  snd (constructor {| Options.port := None; Options.host := None;
                      Options.client := true;
                      Options.outboundTopic := "foo/bar";
                      Options.inboundTopic := "bar/foo" |})
  = [Announce "Attempting to connect to MQTT broker at mqtt://localhost:1883...";
     ClientOn "connect" OnConnect; ClientOn "error" OnError;
     ClientOn "message" OnMessage;
     ClientSubscribe "foo/bar" OnSubscribeComplete].
Proof. reflexivity. Qed.

(** test('onError()'), test('onSubscribeComplete() error'),
    test('onSubscribeComplete() success'), test('log'), test('identify()') *)
Example test_connection_handlers :
  let failed := Error "Failed to connect!" in
  snd (run_all base [ClientFailed failed; SubscribeCompleted (Some failed);
                     SubscribeCompleted None; HostLog ["foo"; "bar"]%string;
                     Identify (Fn 1)])
  = [Did (Log "Error establishing connection to MQTT broker!"); LoggedError failed;
     Did (Log "An error occurred subscribing to foo/bar"); LoggedError failed;
     Did (Log "Successfully subscribed to foo/bar");
     LoggedArgs ["foo"; "bar"]%string;
     Did (Log "Identify requested!"); Confirmed 1].
Proof. reflexivity. Qed.

(** X14. The constructor subscribes to one topic, the outbound topic of
    the instance it builds, and that is the topic [onMessage] accepts: a
    JSON payload delivered on a subscribed topic reaches the hook.  It
    opens a connection of its own exactly when no client is supplied, at
    the address of host and port, and the instance it leaves has empty
    state and queue and meets the invariant of X2. *)
Theorem constructor_subscribes_where_onMessage_listens :
  forall (o : Options.t),
    subscriptions (snd (constructor o)) = [outboundTopic (fst (constructor o))] /\
    connections (snd (constructor o))
    = (if Options.client o then [] else [address o]) /\
    listeners (snd (constructor o))
    = [("connect"%string, OnConnect); ("error"%string, OnError);
       ("message"%string, OnMessage)] /\
    state (fst (constructor o)) = [] /\
    armed (fst (constructor o)) /\
    forall (topic buffer : string) (st : JSON.value),
      In topic (subscriptions (snd (constructor o))) ->
      JSON.parse buffer = Some st ->
      hook_calls (snd (step (fst (constructor o)) (Message topic buffer))) = [st].
Proof.
  intros o. unfold constructor. cbn [fst snd].
  assert (S : forall pre,
             subscriptions
               (pre ++ [Announce ("Attempting to connect to MQTT broker at "
                                  ++ address o ++ "...")%string;
                        ClientOn "connect" OnConnect; ClientOn "error" OnError;
                        ClientOn "message" OnMessage;
                        ClientSubscribe (Options.outboundTopic o) OnSubscribeComplete])
             = subscriptions pre ++ [Options.outboundTopic o]).
  { intros pre. unfold subscriptions. now rewrite flat_map_app. }
  split; [|split; [|split; [|split; [|split]]]].
  - rewrite S. now destruct (Options.client o).
  - unfold connections. rewrite flat_map_app. cbn.
    destruct (Options.client o); reflexivity.
  - unfold listeners. rewrite flat_map_app. cbn.
    destruct (Options.client o); reflexivity.
  - reflexivity.
  - repeat split.
  - intros topic buffer st I Hparse. rewrite S in I.
    assert (E : topic = Options.outboundTopic o).
    { destruct (Options.client o); cbn in I; intuition. }
    subst topic.
    unfold step, handle, onMessage, bind, this, emit. cbn [outboundTopic new].
    rewrite String.eqb_refl, Hparse. reflexivity.
Qed.

Lemma loop_effects_app (a b : list notice) :
  loop_effects (a ++ b) = loop_effects a ++ loop_effects b.
Proof. apply flat_map_app. Qed.

Lemma confirmed_app (a b : list notice) :
  confirmed (a ++ b) = confirmed a ++ confirmed b.
Proof. apply flat_map_app. Qed.

Lemma without_logs_app (a b : list effect) :
  without_logs (a ++ b) = without_logs a ++ without_logs b.
Proof. apply filter_app. Qed.

Lemma loop_effects_did (out : list effect) :
  loop_effects (map Did out) = without_logs out /\ confirmed (map Did out) = [].
Proof.
  induction out as [|e out (IH1 & IH2)]; [auto|].
  split; [|exact IH2].
  destruct e; cbn; try exact IH1; f_equal; exact IH1.
Qed.

Lemma occur_transparent (w : instance) (o : occurrence) :
  fst (occur w o) = fst (run w (loop_events [o])) /\
  loop_effects (snd (occur w o)) = without_logs (snd (run w (loop_events [o]))) /\
  confirmed (snd (occur w o)) = identified [o].
Proof.
  destruct o as [e| |e|[e|]|args|[f|]]; cbn [loop_events flat_map app identified];
    try (cbn; auto; fail).
  rewrite run_cons. cbn [run fst snd occur]. rewrite app_nil_r.
  destruct (step w e) as [w' out]. cbn [fst snd].
  destruct (loop_effects_did out) as (-> & ->). auto.
Qed.

Lemma run_all_cons (o : occurrence) (os : list occurrence) (w : instance) :
  run_all w (o :: os) =
  (fst (run_all (fst (occur w o)) os),
   snd (occur w o) ++ snd (run_all (fst (occur w o)) os)).
Proof.
  cbn. destruct (occur w o) as [w1 out1]; cbn.
  destruct (run_all w1 os); reflexivity.
Qed.

(** X15. The connection handlers, [log] and [identify] only log (and
    [identify] calls its own callback, at once): put anywhere into a run,
    they leave the instance as the run alone leaves it, and add no
    publish, no hook call and no call of a queued callback.  A connection
    or subscription error therefore fails no pending callback, and the
    callbacks [identify] confirms are those handed to it, in order. *)
Theorem connection_handlers_leave_the_coalescer_alone :
  forall (w : instance) (os : list occurrence),
    fst (run_all w os) = fst (run w (loop_events os)) /\
    loop_effects (snd (run_all w os)) = without_logs (snd (run w (loop_events os))) /\
    confirmed (snd (run_all w os)) = identified os.
Proof.
  intros w os. revert w. induction os as [|o os IH]; intros w; [cbn; auto|].
  assert (L : loop_events (o :: os) = loop_events [o] ++ loop_events os).
  { unfold loop_events. cbn [flat_map]. now rewrite app_nil_r. }
  assert (I : identified (o :: os) = identified [o] ++ identified os).
  { unfold identified. cbn [flat_map]. now rewrite app_nil_r. }
  rewrite run_all_cons, L, I, run_app. cbn [fst snd].
  destruct (occur_transparent w o) as (E1 & E2 & E3).
  destruct (IH (fst (occur w o))) as (F1 & F2 & F3).
  rewrite loop_effects_app, confirmed_app, without_logs_app.
  rewrite F1, F2, F3, E1, E2, E3. auto.
Qed.

(** ** The hook over a whole run *)

Lemma hook_calls_app (a b : list effect) :
  hook_calls (a ++ b) = hook_calls a ++ hook_calls b.
Proof. apply flat_map_app. Qed.

Lemma hook_calls_drain (err : option error) (q : list callback) :
  hook_calls (fst (drain err q)) = [].
Proof.
  induction q as [|[f|] q IH]; cbn; try reflexivity.
  destruct (drain err q); cbn in *. exact IH.
Qed.

Lemma step_hook_calls (w : instance) (e : event) :
  hook_calls (snd (step w e)) = deliveries w [e].
Proof.
  destruct e as [p c|ms|err|topic buffer].
  - now rewrite step_set.
  - destruct (timer w) as [due|] eqn:T.
    + destruct (Nat.le_gt_cases due ms) as [Hle|Hgt].
      * now rewrite (step_elapse_due _ _ _ T Hle).
      * now rewrite (step_elapse_early _ _ _ T Hgt).
    + now rewrite (step_elapse_idle _ _ T).
  - destruct (inFlight w) as [|n] eqn:F.
    + now rewrite (step_done_none _ _ F).
    + rewrite (step_done _ _ _ F). cbn [snd]. apply hook_calls_drain.
  - unfold step, handle, onMessage, bind, this, emit, throw, deliveries.
    cbn [flat_map]. destruct (String.eqb topic (outboundTopic w)); cbn;
      [|reflexivity].
    destruct (JSON.parse buffer); reflexivity.
Qed.

Lemma deliveries_topic (w w' : instance) (es : list event) :
  outboundTopic w' = outboundTopic w -> deliveries w' es = deliveries w es.
Proof. unfold deliveries. now intros ->. Qed.

(** X16. Over a whole run the hook is driven by incoming messages alone:
    it is called once for each message on the outbound topic whose payload
    is JSON, in the order of arrival, with the parsed payload, and by
    nothing else.  No call of [setStateAndEmit], no flush and no completed
    or failed publish reaches it, and a payload that made [onMessage]
    throw does not keep later messages from it. *)
Theorem hook_is_driven_by_messages_alone :
  forall (w : instance) (es : list event),
    hook_calls (snd (run w es)) = deliveries w es.
Proof.
  intros w es. revert w. induction es as [|e es IH]; intros w; [reflexivity|].
  rewrite run_cons. cbn [snd]. rewrite hook_calls_app, step_hook_calls, IH.
  rewrite (deliveries_topic w (fst (step w e)) es) by apply step_topics.
  unfold deliveries. cbn [flat_map]. now rewrite app_nil_r.
Qed.
